(** * PHASMOWATCH: pointer-chain loader, resolver and vote

    A shallow embedding of [main.py]: the chain-definition loader
    ([parse_address_spec], [parse_offsets], [load_entries]), the multi-level
    pointer resolver ([resolve_pointer]) and the poll loop of [main] with its
    majority vote over resolved addresses.

    Python integers are unbounded, so they are [Z] with no wrap-around.
    Python strings are [string]; a character is read as the code point of
    its byte (0..255).  A Python call either returns or raises: [outcome].
    Calls that touch the outside world (the target process, the terminal,
    the clock, the [RUNNING] flag) run in the monad [M], which threads a
    logical clock and the trace of observable events. *)

From Stdlib Require Import ZArith List Bool Lia Arith.
From Stdlib.Strings Require Import String Ascii Byte.
Import ListNotations.

Local Open Scope string_scope.
Local Open Scope list_scope.
Local Open Scope Z_scope.

(** ** Outcomes of Python calls *)

(** The exception classes that occur; all of them derive from [Exception],
    so a clause [except Exception] catches every one. *)
Inductive exn : Type :=
| ValueError        (* int(), tuple unpacking *)
| AttributeError    (* attribute of None *)
| IndexError        (* list index out of range *)
| StructError       (* struct.error *)
| MemoryReadError   (* pymem: the read failed *)
| ProcessError      (* pymem: attach, module listing or close failed *)
| OSError.          (* a write to the terminal failed *)

Inductive outcome (A : Type) : Type :=
| Return (a : A)
| Raise (e : exn).

Arguments Return {A} a.
Arguments Raise {A} e.

Definition obind {A B} (o : outcome A) (f : A -> outcome B) : outcome B :=
  match o with
  | Return a => f a
  | Raise e => Raise e
  end.

Module PyStr.

(** *** Characters *)

Definition code (c : ascii) : N := N_of_ascii c.

Definition between (lo hi : N) (c : ascii) : bool :=
  ((lo <=? code c) && (code c <=? hi))%N.

(** [str.isspace] on the code points below 256. *)
Definition isspace (c : ascii) : bool :=
  between 9 13 c || between 28 32 c || (code c =? 133)%N || (code c =? 160)%N.

(** [str.lower] on one character of the code points below 256: A-Z and
    the Latin-1 capitals (0xC0-0xDE but the multiplication sign 0xD7). *)
Definition lower_char (c : ascii) : ascii :=
  if between 65 90 c || (between 192 222 c && negb (code c =? 215)%N)
  then ascii_of_N (code c + 32)
  else c.

(** *** [str.strip], [str.lower], [str.replace], [str.split] *)

Fixpoint lstrip (s : string) : string :=
  match s with
  | String c r => if isspace c then lstrip r else s
  | EmptyString => EmptyString
  end.

Fixpoint rstrip (s : string) : string :=
  match s with
  | String c r =>
      match rstrip r with
      | EmptyString => if isspace c then EmptyString else String c EmptyString
      | r' => String c r'
      end
  | EmptyString => EmptyString
  end.

(** [s.strip()] *)
Definition strip (s : string) : string := rstrip (lstrip s).

(** [s.lower()] *)
Fixpoint lower (s : string) : string :=
  match s with
  | String c r => String (lower_char c) (lower r)
  | EmptyString => EmptyString
  end.

(** [skip] characters of an occurrence of [old] already matched are still
    to be dropped. *)
Fixpoint replace_from (old new s : string) (skip : nat) : string :=
  match s with
  | EmptyString => EmptyString
  | String c r =>
      match skip with
      | S k => replace_from old new r k
      | O =>
          if prefix old s
          then (new ++ replace_from old new r (Nat.pred (String.length old)))%string
          else String c (replace_from old new r 0)
      end
  end.

(** [s.replace(old, new)] for a non-empty [old]: the occurrences of [old]
    are taken from left to right, without overlap. *)
Definition replace (old new s : string) : string := replace_from old new s 0.

(** [s.split(sep, 1)] for a one-character [sep]: the text before the first
    [sep] and the text after it, or [s] alone when there is none. *)
Fixpoint split1 (sep : ascii) (s : string) : list string :=
  match s with
  | EmptyString => [EmptyString]
  | String c r =>
      if Ascii.eqb c sep then [EmptyString; r]
      else match split1 sep r with
           | a :: rest => String c a :: rest
           | [] => []
           end
  end.

(** The one-character string made of a double quote. *)
Definition dquote : string := String (ascii_of_N 34) EmptyString.

(** [sep in s] *)
Fixpoint contains (sep : ascii) (s : string) : bool :=
  match s with
  | EmptyString => false
  | String c r => Ascii.eqb c sep || contains sep r
  end.

(** *** [int(s, 16)] *)

(** C's [Py_ISSPACE]: tab, newline, vertical tab, form feed, return, space. *)
Definition Py_ISSPACE (c : ascii) : bool :=
  between 9 13 c || (code c =? 32)%N.

(** Before it scans, [int] turns a white-space character above 127 into a
    space (the other characters above 127 stay invalid). *)
Definition space_to_ascii (c : ascii) : ascii :=
  if (code c =? 133)%N || (code c =? 160)%N then " "%char else c.

Fixpoint spaces_to_ascii (s : string) : string :=
  match s with
  | String c r => String (space_to_ascii c) (spaces_to_ascii r)
  | EmptyString => EmptyString
  end.

Fixpoint skip_spaces (s : string) : string :=
  match s with
  | String c r => if Py_ISSPACE c then skip_spaces r else s
  | EmptyString => EmptyString
  end.

Definition hex_digit (c : ascii) : option Z :=
  if between 48 57 c then Some (Z.of_N (code c) - 48)
  else if between 97 102 c then Some (Z.of_N (code c) - 87)
  else if between 65 70 c then Some (Z.of_N (code c) - 55)
  else None.

(** The digit scan: hexadecimal digits, with single underscores between
    them.  It gives the value, the number of characters read and the rest,
    or [None] on a doubled or a trailing underscore. *)
Fixpoint scan_hex (s : string) (acc : Z) (read : nat) (prev_underscore : bool)
  : option (Z * nat * string) :=
  match s with
  | EmptyString => if prev_underscore then None else Some (acc, read, s)
  | String c r =>
      if Ascii.eqb c "_" then
        if prev_underscore then None else scan_hex r acc (S read) true
      else
        match hex_digit c with
        | Some d => scan_hex r (16 * acc + d) (S read) false
        | None => if prev_underscore then None else Some (acc, read, s)
        end
  end.

(** [int(s, 16)]: white space, an optional sign, an optional [0x] or [0X]
    (with one underscore allowed after it), the digits, white space. *)
Definition int16 (s : string) : outcome Z :=
  let s0 := skip_spaces (spaces_to_ascii s) in
  let '(negative, s1) :=
    match s0 with
    | String "+" r => (false, r)
    | String "-" r => (true, r)
    | _ => (false, s0)
    end in
  let s2 :=
    match s1 with
    | String "0" (String x r) =>
        if Ascii.eqb x "x" || Ascii.eqb x "X"
        then match r with String "_" r' => r' | _ => r end
        else s1
    | _ => s1
    end in
  match s2 with
  | String "_" _ => Raise ValueError
  | _ =>
      match scan_hex s2 0 0 false with
      | None => Raise ValueError
      | Some (_, O, _) => Raise ValueError
      | Some (v, S _, rest) =>
          match skip_spaces rest with
          | EmptyString => Return (if negative then - v else v)
          | String _ _ => Raise ValueError
          end
      end
  end.

End PyStr.

(** ** The chain-definition loader *)

(** [module, off = s.split("+", 1)]: unpacking into two names raises
    [ValueError] unless the list has exactly two elements. *)
Definition unpack2 (l : list string) : outcome (string * string) :=
  match l with
  | [a; b] => Return (a, b)
  | _ => Raise ValueError
  end.

Definition parse_address_spec (spec : string) : outcome (string * Z) :=
  let s := PyStr.replace PyStr.dquote EmptyString (PyStr.strip spec) in
  obind (unpack2 (PyStr.split1 "+" s)) (fun '(module, off) =>
  obind (PyStr.int16 (PyStr.replace "0x" EmptyString (PyStr.strip off))) (fun n =>
  Return (PyStr.strip module, n))).

(** The text of an [Offset] element: [n.text or ""]. *)
Definition text_or_empty (text : option string) : string :=
  match text with
  | Some t => t
  | None => EmptyString
  end.

(** [parse_offsets]: the loop over the [Offset] elements, [offs] being the
    list built so far. *)
Fixpoint parse_offsets_from (offset_nodes : list (option string)) (offs : list Z)
  : outcome (list Z) :=
  match offset_nodes with
  | [] => Return offs
  | n :: rest =>
      let txt :=
        PyStr.replace "0x" EmptyString (PyStr.lower (PyStr.strip (text_or_empty n))) in
      match txt with
      | EmptyString => parse_offsets_from rest offs
      | String _ _ =>
          obind (PyStr.int16 txt) (fun v => parse_offsets_from rest (offs ++ [v]))
      end
  end.

Definition parse_offsets (offset_nodes : list (option string)) : outcome (list Z) :=
  parse_offsets_from offset_nodes [].

(** What [load_entries] reads of a [CheatEntry] element: the text of its
    [Address] child ([findtext], [None] when there is no such child) and,
    when it has an [Offsets] child, the texts of that child's [Offset]
    elements in file order. *)
Record CheatEntry : Type := {
  Address : option string;
  Offsets : option (list (option string))
}.

(** A loaded definition: [(module_name, base_offset, offsets)]. *)
Definition chain : Type := (string * Z * list Z)%type.

(** The offsets of one entry, as [load_entries] stores them. *)
Definition entry_offsets (entry : CheatEntry) : outcome (list Z) :=
  match Offsets entry with
  | Some offset_nodes => obind (parse_offsets offset_nodes) (fun offsets => Return (rev offsets))
  | None => Return []
  end.

(** [not addr_spec]: the text is absent or empty. *)
Definition no_address (addr_spec : option string) : bool :=
  match addr_spec with
  | None | Some EmptyString => true
  | Some (String _ _) => false
  end.

(** [load_entries]: the loop over the [CheatEntry] elements of the parsed
    file, [parsed] being the list built so far. *)
Fixpoint load_entries_from (entries : list CheatEntry) (parsed : list chain)
  : outcome (list chain) :=
  match entries with
  | [] => Return parsed
  | entry :: rest =>
      let addr_spec := Address entry in
      obind (entry_offsets entry) (fun offsets =>
      if no_address addr_spec then load_entries_from rest parsed
      else
        obind (parse_address_spec (text_or_empty addr_spec)) (fun '(module_name, base_offset) =>
        load_entries_from rest (parsed ++ [(module_name, base_offset, offsets)])))
  end.

Definition load_entries (entries : list CheatEntry) : outcome (list chain) :=
  load_entries_from entries [].

(** ** Bytes *)

Definition byte_val (b : byte) : Z := Z.of_N (Byte.to_N b).

(** [int.from_bytes(bs, "little")] *)
Fixpoint int_from_bytes_little (bs : list byte) : Z :=
  match bs with
  | [] => 0
  | b :: rest => byte_val b + 256 * int_from_bytes_little rest
  end.

(** [struct.unpack("<i", raw)[0]]: a buffer of exactly four bytes, read as
    a little-endian two's complement integer. *)
Definition unpack_i32 (raw : list byte) : outcome Z :=
  match raw with
  | [_; _; _; _] =>
      let u := int_from_bytes_little raw in
      Return (if u <? 2 ^ 31 then u else u - 2 ^ 32)
  | _ => Raise StructError
  end.

(** The byte of value [z mod 256]. *)
Definition byte_of (z : Z) : byte :=
  match Byte.of_N (Z.to_N (z mod 256)) with
  | Some b => b
  | None => x00
  end.

(** [v.to_bytes(n, "little")] for a memory image. *)
Fixpoint to_bytes_little (n : nat) (v : Z) : list byte :=
  match n with
  | O => []
  | S k => byte_of v :: to_bytes_little k (v / 256)
  end.

(** ** The monad of effectful calls *)

(** What the program shows on the terminal, one constructor per message. *)
Inductive message : Type :=
| MsgHeader                                   (* draw_header *)
| MsgMissingXml
| MsgNoEntries
| MsgNoGame
| MsgAttachFailed (e : exn)
| MsgNoValidPointers
| MsgMemoryReadFailed
| MsgValue (value best_addr : Z) (count total : nat)   (* draw_value_line *)
| MsgGhostChart (ghost : string)              (* draw_ghost_chart *)
| MsgEvidenceChart (ghost : string)           (* draw_evidence_chart *)
| MsgRefreshing
| MsgGoodbye.

Inductive event : Type :=
| EvClear                   (* clear_screen() *)
| EvPrint (m : message)     (* a message written to the terminal *)
| EvAcquire                 (* Pymem(PROCESS_NAME) gave a handle *)
| EvRelease (ok : bool)     (* pm.close_process() was called; [ok] is false when it raised *)
| EvSleep.                  (* time.sleep(1) *)

(** The state threaded through the calls: a logical clock, advanced by
    every call that asks the outside world, and the events so far, oldest
    first. *)
Record St : Type := mkSt {
  clock : nat;
  trace : list event
}.

Definition M (A : Type) : Type := St -> outcome A * St.

Definition ret {A} (a : A) : M A := fun s => (Return a, s).

Definition raise {A} (e : exn) : M A := fun s => (Raise e, s).

Definition bind {A B} (m : M A) (f : A -> M B) : M B :=
  fun s =>
    match m s with
    | (Return a, s1) => f a s1
    | (Raise e, s1) => (Raise e, s1)
    end.

Declare Scope py_scope.
Delimit Scope py_scope with py.
Notation "x <- m ;; k" := (bind m (fun x => k))
  (at level 61, m at next level, right associativity) : py_scope.
Notation "m ;;; k" := (bind m (fun _ => k))
  (at level 61, right associativity) : py_scope.
Local Open Scope py_scope.

(** A pure call that may raise. *)
Definition lift {A} (o : outcome A) : M A := fun s => (o, s).

(** [try: body except Exception: handler] *)
Definition try_except {A} (body : M A) (handler : exn -> M A) : M A :=
  fun s =>
    match body s with
    | (Return a, s1) => (Return a, s1)
    | (Raise e, s1) => handler e s1
    end.

(** [try: body finally: final].  The final block runs however [body]
    ends; when it raises, its exception replaces the outcome of [body]. *)
Definition try_finally {A} (body : M A) (final : M unit) : M A :=
  fun s =>
    match body s with
    | (r, s1) =>
        match final s1 with
        | (Return _, s2) => (r, s2)
        | (Raise e, s2) => (Raise e, s2)
        end
    end.

(** Ask the outside world at the current time, and let the time pass. *)
Definition ask {A} (oracle : nat -> outcome A) : M A :=
  fun s => (oracle (clock s), mkSt (S (clock s)) (trace s)).

Definition emit (e : event) : M unit :=
  fun s => (Return tt, mkSt (clock s) (trace s ++ [e])).

(** ** The memory accessor *)

(** A handle on the target process ([Pymem]).  What the process answers
    may change from one call to the next, so every answer depends on the
    time of the call.
    - [module_from_name t name]: [lpBaseOfDll] of the module found, or
      [None] when no module has that name;
    - [read_bytes t address length];
    - [close_process t]. *)
Record Pymem : Type := {
  module_from_name : nat -> string -> outcome (option Z);
  read_bytes : nat -> Z -> Z -> outcome (list byte);
  close_process : nat -> outcome unit
}.

Definition pm_read (pm : Pymem) (address length : Z) : M (list byte) :=
  ask (fun t => read_bytes pm t address length).

(** ** The pointer-chain resolver *)

(** [for off in offs: addr = int.from_bytes(pm.read_bytes(addr + off, 8), "little")] *)
Fixpoint follow (pm : Pymem) (offs : list Z) (addr : Z) : M Z :=
  match offs with
  | [] => ret addr
  | off :: rest =>
      addr_bytes <- pm_read pm (addr + off) 8 ;;
      follow pm rest (int_from_bytes_little addr_bytes)
  end.

Definition resolve_pointer (pm : Pymem) (module_name : string) (base_offset : Z)
    (offsets : list Z) : M (option Z) :=
  try_except
    (mod_ <- ask (fun t => module_from_name pm t module_name) ;;
     lpBaseOfDll <- match mod_ with
                    | Some b => ret b
                    | None => raise AttributeError
                    end ;;
     let base_addr := lpBaseOfDll + base_offset in
     addr_bytes <- pm_read pm base_addr 8 ;;
     let addr := int_from_bytes_little addr_bytes in
     addr <- follow pm (removelast offsets) addr ;;
     ret (Some (addr + last offsets 0)))
    (fun _ => ret None).

(** ** The vote *)

(** [collections.Counter]: the keys in the order of their first insertion,
    each with its count. *)
Fixpoint counter_add (counter : list (Z * nat)) (a : Z) : list (Z * nat) :=
  match counter with
  | [] => [(a, 1%nat)]
  | (k, n) :: rest =>
      if k =? a then (k, S n) :: rest else (k, n) :: counter_add rest a
  end.

Definition Counter (addrs : list Z) : list (Z * nat) :=
  fold_left counter_add addrs [].

(** [max(items, key=itemgetter(1))] with the best item so far: a later
    item replaces it only when its count is strictly greater. *)
Fixpoint max_by_count (best : Z * nat) (items : list (Z * nat)) : Z * nat :=
  match items with
  | [] => best
  | x :: rest => max_by_count (if (snd best <? snd x)%nat then x else best) rest
  end.

(** [counter.most_common(1)] *)
Definition most_common_1 (counter : list (Z * nat)) : list (Z * nat) :=
  match counter with
  | [] => []
  | x :: rest => [max_by_count x rest]
  end.

(** [l[0]] *)
Definition first_item {A} (l : list A) : outcome A :=
  match l with
  | x :: _ => Return x
  | [] => Raise IndexError
  end.

(** Lines 300-302: the winning address and its count. *)
Definition vote (results : list (Z * Z)) : outcome (Z * nat) :=
  let addrs := map fst results in
  let counter := Counter addrs in
  first_item (most_common_1 counter).

(** ** One cycle: resolve every chain, vote, read the winner again *)

(** [struct.unpack("<i", pm.read_bytes(addr, 4))[0]] *)
Definition read_value (pm : Pymem) (addr : Z) : M Z :=
  raw <- pm_read pm addr 4 ;;
  lift (unpack_i32 raw).

(** The body of the loop of lines 281-290 for one definition. *)
Definition collect_one (pm : Pymem) (entry : chain) (results : list (Z * Z))
  : M (list (Z * Z)) :=
  let '(module_name, base_offset, offsets) := entry in
  addr <- resolve_pointer pm module_name base_offset offsets ;;
  match addr with
  | None => ret results
  | Some a =>
      if a =? 0 then ret results
      else
        try_except
          (val <- read_value pm a ;;
           ret (results ++ [(a, val)]))
          (fun _ => ret results)
  end.

(** Lines 280-290. *)
Fixpoint collect (pm : Pymem) (entries : list chain) (results : list (Z * Z))
  : M (list (Z * Z)) :=
  match entries with
  | [] => ret results
  | entry :: rest =>
      results' <- collect_one pm entry results ;;
      collect pm rest results'
  end.

(** What a cycle shows: [value] at [best_addr], with [count] hits out of
    [len(results)]. *)
Record StabilizedResult : Type := {
  winning_address : Z;      (* best_addr *)
  value : Z;                (* value *)
  agreement_count : nat;    (* count *)
  total_resolved : nat      (* len(results) *)
}.

Inductive cycle_result : Type :=
| NoConsensus                (* "No valid pointers found." *)
| StabilizationReadFailed    (* "Memory read failed." *)
| Stabilized (r : StabilizedResult).

(** Lines 280-313 without what they print: the three ways a cycle ends. *)
Definition aggregate (pm : Pymem) (entries : list chain) : M cycle_result :=
  results <- collect pm entries [] ;;
  match results with
  | [] => ret NoConsensus
  | _ :: _ =>
      best <- lift (vote results) ;;
      let '(best_addr, count) := best in
      reread <- try_except
                  (v <- read_value pm best_addr ;; ret (Some v))
                  (fun _ => ret None) ;;
      match reread with
      | None => ret StabilizationReadFailed
      | Some v => ret (Stabilized {| winning_address := best_addr;
                                     value := v;
                                     agreement_count := count;
                                     total_resolved := List.length results |})
      end
  end.

(** ** The poll loop *)

Definition PROCESS_NAME : string := "Phasmophobia.exe".
Definition REFRESH_INTERVAL : Z := 30.

(** [GHOST_TYPES.get(value, "Unknown")] *)
Definition GHOST_TYPES : list (Z * string) :=
  [(0, "Spirit"); (1, "Wraith"); (2, "Phantom"); (3, "Poltergeist");
   (4, "Banshee"); (5, "Jinn"); (6, "Mare"); (7, "Revenant"); (8, "Shade");
   (9, "Demon"); (10, "Yurei"); (11, "Oni"); (12, "Yokai"); (13, "Hantu");
   (14, "Goryo"); (15, "Myling"); (16, "Onryo"); (17, "The Twins");
   (18, "Raiju"); (19, "Obake"); (20, "The Mimic"); (21, "Moroi");
   (22, "Deogen"); (23, "Thaye")].

Fixpoint dict_get (d : list (Z * string)) (key : Z) (default : string) : string :=
  match d with
  | [] => default
  | (k, v) :: rest => if k =? key then v else dict_get rest key default
  end.

(** A process of the list [psutil.process_iter(["name", "pid"])]. *)
Record process_info : Type := {
  info_name : option string;
  info_pid : Z
}.

(** The world outside the program, asked at a time:
    - [process_iter t]: the running processes;
    - [Pymem_open t]: what [Pymem(PROCESS_NAME)] gives;
    - [RUNNING t]: the flag that the signal handler clears;
    - [stdout t]: whether a write to the terminal goes through. *)
Record Env : Type := {
  process_iter : nat -> list process_info;
  Pymem_open : nat -> outcome Pymem;
  RUNNING : nat -> bool;
  stdout : nat -> outcome unit
}.

Fixpoint find_pid_in (processes : list process_info) (name : string) : option Z :=
  match processes with
  | [] => None
  | p :: rest =>
      match info_name p with
      | Some (String _ _ as n) =>
          if String.eqb (PyStr.lower n) (PyStr.lower name)
          then Some (info_pid p)
          else find_pid_in rest name
      | _ => find_pid_in rest name
      end
  end.

Definition find_pid_by_name (env : Env) (name : string) : M (option Z) :=
  processes <- ask (fun t => Return (process_iter env t)) ;;
  ret (find_pid_in processes name).

(** One call of a display function: the write goes through, or raises. *)
Definition print (env : Env) (m : message) : M unit :=
  ask (stdout env) ;;; emit (EvPrint m).

(** [for _ in range(n): if not RUNNING: break; time.sleep(1)] *)
Fixpoint wait_ticks (env : Env) (n : nat) : M unit :=
  match n with
  | O => ret tt
  | S k =>
      running <- ask (fun t => Return (RUNNING env t)) ;;
      if running : bool then emit EvSleep ;;; wait_ticks env k else ret tt
  end.

Definition wait (env : Env) : M unit :=
  wait_ticks env (Z.to_nat (Z.max 1 REFRESH_INTERVAL)).

(** Lines 292-325: what a cycle prints, then the refresh wait. *)
Definition show (env : Env) (r : cycle_result) : M unit :=
  match r with
  | NoConsensus => print env MsgNoValidPointers ;;; wait env
  | StabilizationReadFailed => print env MsgMemoryReadFailed ;;; wait env
  | Stabilized r =>
      let ghost := dict_get GHOST_TYPES (value r) "Unknown" in
      print env (MsgValue (value r) (winning_address r)
                          (agreement_count r) (total_resolved r)) ;;;
      print env (MsgGhostChart ghost) ;;;
      print env (MsgEvidenceChart ghost) ;;;
      print env MsgRefreshing ;;;
      wait env
  end.

(** The [try] block of lines 279-325. *)
Definition cycle_body (env : Env) (pm : Pymem) (entries : list chain) : M unit :=
  r <- aggregate pm entries ;;
  show env r.

(** The [finally] block of lines 327-333.  It is reached with [pm] bound
    to a handle, which is a true value, so [close_process] is called; what
    it raises is swallowed. *)
Definition release (pm : Pymem) : M unit :=
  try_except
    (ask (close_process pm) ;;; emit (EvRelease true))
    (fun _ => emit (EvRelease false)).

(** [not pid] *)
Definition no_pid (pid : option Z) : bool :=
  match pid with
  | None => true
  | Some p => p =? 0
  end.

(** Lines 268-277: the attachment, [None] standing for the [continue] of
    the handler. *)
Definition attach (env : Env) : M (option Pymem) :=
  try_except
    (pm <- ask (Pymem_open env) ;;
     emit EvAcquire ;;;
     ret (Some pm))
    (fun e =>
       print env (MsgAttachFailed e) ;;;
       wait env ;;;
       ret None).

(** The body of [while RUNNING:], lines 256-333. *)
Definition iteration (env : Env) (entries : list chain) : M unit :=
  emit EvClear ;;;
  print env MsgHeader ;;;
  pid <- find_pid_by_name env PROCESS_NAME ;;
  if no_pid pid then
    print env MsgNoGame ;;;
    wait env
  else
    pm <- attach env ;;
    match pm with
    | None => ret tt
    | Some pm => try_finally (cycle_body env pm entries) (release pm)
    end.

(** [while RUNNING: ...], for at most [fuel] iterations.  The result says
    whether the loop ended (the flag was found cleared). *)
Fixpoint poll_loop (env : Env) (entries : list chain) (fuel : nat) : M bool :=
  match fuel with
  | O => ret false
  | S k =>
      running <- ask (fun t => Return (RUNNING env t)) ;;
      if running : bool
      then iteration env entries ;;; poll_loop env entries k
      else ret true
  end.

(** [main]: [xml] is [None] when the file is missing, and else what
    [etree.parse] and [findall] give. *)
Definition main (env : Env) (xml : option (outcome (list CheatEntry))) (fuel : nat)
  : M unit :=
  match xml with
  | None => print env MsgMissingXml
  | Some tree =>
      entries <- lift (obind tree load_entries) ;;
      match entries with
      | [] => print env MsgNoEntries
      | _ :: _ =>
          ended <- poll_loop env entries fuel ;;
          if ended : bool then print env MsgGoodbye else ret tt
      end
  end.

(** ** A memory image for the examples *)

Module Image.

(** A fixed image: the modules with their bases, and the mapped ranges as
    (address, bytes). *)
Record image : Type := {
  modules : list (string * Z);
  mapped : list (Z * list byte)
}.

Fixpoint module_base (ms : list (string * Z)) (name : string) : option Z :=
  match ms with
  | [] => None
  | (n, b) :: rest => if String.eqb n name then Some b else module_base rest name
  end.

(** The [length] bytes at [address], when one mapped range starts there
    and is long enough. *)
Fixpoint read (ranges : list (Z * list byte)) (address length : Z)
  : outcome (list byte) :=
  match ranges with
  | [] => Raise MemoryReadError
  | (a, bs) :: rest =>
      if (a =? address) && (length <=? Z.of_nat (List.length bs))
      then Return (firstn (Z.to_nat length) bs)
      else read rest address length
  end.

(** The handle that reads [img] at every time. *)
Definition handle (img : image) : Pymem :=
  {| module_from_name := fun _ name => Return (module_base (modules img) name);
     read_bytes := fun _ address length => read (mapped img) address length;
     close_process := fun _ => Return tt |}.

Definition ptr (address target : Z) : Z * list byte :=
  (address, to_bytes_little 8 target).

Definition int32 (address v : Z) : Z * list byte :=
  (address, to_bytes_little 4 v).

End Image.

Definition s0 : St := mkSt 0 [].

(** ** The resolver as the specification words it *)

(** Steps 4 and 5: a pointer read for every offset but the last one, and
    the last offset (or 0 when there is none) added with no read. *)
Fixpoint walk_spec (pm : Pymem) (addr : Z) (offsets : list Z) : M Z :=
  match offsets with
  | [] => ret (addr + 0)
  | offset :: rest =>
      match rest with
      | [] => ret (addr + offset)
      | _ :: _ =>
          pointer <- pm_read pm (addr + offset) 8 ;;
          walk_spec pm (int_from_bytes_little pointer) rest
      end
  end.

(** Steps 1 to 3, then the walk; a failure at any step is reported as
    [None]. *)
Definition resolve_spec (pm : Pymem) (module_name : string) (base_offset : Z)
    (offsets : list Z) : M (option Z) :=
  fun s =>
    match module_from_name pm (clock s) module_name with
    | Return (Some module_base) =>
        let s1 := mkSt (S (clock s)) (trace s) in
        match pm_read pm (module_base + base_offset) 8 s1 with
        | (Return pointer, s2) =>
            match walk_spec pm (int_from_bytes_little pointer) offsets s2 with
            | (Return address, s3) => (Return (Some address), s3)
            | (Raise _, s3) => (Return None, s3)
            end
        | (Raise _, s2) => (Return None, s2)
        end
    | _ => (Return None, mkSt (S (clock s)) (trace s))
    end.

(** Every read of the walk over [offs], started at time [t] from [addr],
    succeeds, and the walk ends at [final]. *)
Inductive Follows (pm : Pymem) : nat -> Z -> list Z -> Z -> Prop :=
| Follows_nil : forall t addr, Follows pm t addr [] addr
| Follows_cons : forall t addr off rest pointer final,
    read_bytes pm t (addr + off) 8 = Return pointer ->
    Follows pm (S t) (int_from_bytes_little pointer) rest final ->
    Follows pm t addr (off :: rest) final.

(** Every step of the resolution started at time [t] succeeds: the module
    is found, the first pointer is read, and so is every pointer of the
    walk; [final] is the address reached. *)
Definition Resolves (pm : Pymem) (t : nat) (module_name : string) (base_offset : Z)
    (offsets : list Z) (final : Z) : Prop :=
  exists module_base pointer addr,
    module_from_name pm t module_name = Return (Some module_base) /\
    read_bytes pm (S t) (module_base + base_offset) 8 = Return pointer /\
    Follows pm (S (S t)) (int_from_bytes_little pointer) (removelast offsets) addr /\
    final = addr + last offsets 0.

(** ** Unchanged memory *)

(** Two handles read the same unchanged memory image: what they answer
    depends neither on the handle nor on the time of the call. *)
Definition same_image (pm1 pm2 : Pymem) : Prop :=
  (forall t1 t2 name, module_from_name pm1 t1 name = module_from_name pm2 t2 name) /\
  (forall t1 t2 address length,
      read_bytes pm1 t1 address length = read_bytes pm2 t2 address length).

(** ** The handle along a trace *)

(** Whether the handle is held after the events [evs], [held] telling
    whether it was before them. *)
Fixpoint held_after (held : bool) (evs : list event) : bool :=
  match evs with
  | [] => held
  | EvAcquire :: rest => held_after true rest
  | EvRelease _ :: rest => held_after false rest
  | _ :: rest => held_after held rest
  end.

(** Whether some [time.sleep(1)] of [evs] happens while the handle is held. *)
Fixpoint sleeps_while_held (held : bool) (evs : list event) : bool :=
  match evs with
  | [] => false
  | EvAcquire :: rest => sleeps_while_held true rest
  | EvRelease _ :: rest => sleeps_while_held false rest
  | EvSleep :: rest => held || sleeps_while_held held rest
  | _ :: rest => sleeps_while_held held rest
  end.

(** An event that acquires or releases the handle. *)
Definition handle_event (e : event) : bool :=
  match e with
  | EvAcquire | EvRelease _ => true
  | _ => false
  end.


(** ** Fixtures *)

Module Fixture.
Import Image.

(** Module base 0x1000; the pointer at 0x1010 is 0x2000; the pointer at
    0x2004 is 0x3000.  Nothing is mapped at 0x3008. *)
Definition chain_only : image :=
  {| modules := [("Core", 0x1000)];
     mapped := [ptr 0x1010 0x2000; ptr 0x2004 0x3000] |}.

(** The same chain with the value 7 at 0x3008, and a second base pointer
    at 0x1020 to 0x4000, where the value is 9. *)
Definition two_targets : image :=
  {| modules := [("Core", 0x1000)];
     mapped := [ptr 0x1010 0x2000; ptr 0x2004 0x3000; int32 0x3008 7;
                ptr 0x1020 0x4000; int32 0x4000 9] |}.

(** The chain to 0x3008, unreadable there, and the chain to 0x4000. *)
Definition unreadable_target : image :=
  {| modules := [("Core", 0x1000)];
     mapped := [ptr 0x1010 0x2000; ptr 0x2004 0x3000;
                ptr 0x1020 0x4000; int32 0x4000 9] |}.

(** A handle on [img] whose [close_process] raises. *)
Definition handle_close_fails (img : image) : Pymem :=
  {| module_from_name := module_from_name (handle img);
     read_bytes := read_bytes (handle img);
     close_process := fun _ => Raise ProcessError |}.

(** A null pointer at 0x1030, with address 0 itself readable. *)
Definition null_target : image :=
  {| modules := [("Core", 0x1000)];
     mapped := [ptr 0x1010 0x2000; ptr 0x2004 0x3000; int32 0x3008 7;
                ptr 0x1030 0; int32 0 5] |}.

Definition to_3008 : chain := ("Core", 0x10, [0x4; 0x8]).
Definition to_4000 : chain := ("Core", 0x20, []).
Definition to_null : chain := ("Core", 0x30, []).

(** The game runs and can be attached to; the flag is cleared at time
    [stop]; the terminal fails at the times [broken] tells. *)
Definition env_of (pm : Pymem) (stop : nat) (broken : nat -> bool) : Env :=
  {| process_iter := fun _ => [{| info_name := Some "Phasmophobia.exe"; info_pid := 4242 |}];
     Pymem_open := fun _ => Return pm;
     RUNNING := fun t => (t <? stop)%nat;
     stdout := fun t => if broken t then Raise OSError else Return tt |}.

(** Two base pointers, at 0x1040 to 0xAAAA and at 0x1050 to 0xBBBB, the
    values 3 and 4 being there. *)
Definition two_way : image :=
  {| modules := [("Core", 0x1000)];
     mapped := [ptr 0x1040 0xAAAA; ptr 0x1050 0xBBBB;
                int32 0xAAAA 3; int32 0xBBBB 4] |}.

Definition to_AAAA : chain := ("Core", 0x40, []).
Definition to_BBBB : chain := ("Core", 0x50, []).

End Fixture.

(** ** The loader, entry by entry *)

(** The [Offset] texts of an entry, in file order. *)
Definition offset_nodes (entry : CheatEntry) : list (option string) :=
  match Offsets entry with
  | Some nodes => nodes
  | None => []
  end.

(** The entry has an address specification, so it is kept. *)
Definition kept (entry : CheatEntry) : bool := negb (no_address (Address entry)).

(** The stored offsets of [d] are the parsed offsets of [entry], reversed. *)
Definition stores_reversed (entry : CheatEntry) (d : chain) : Prop :=
  exists file_order : list Z,
    parse_offsets (offset_nodes entry) = Return file_order /\
    snd d = rev file_order.

(** ** The vote, in words *)

(** The number of times [a] occurs in [addrs]. *)
Definition occurrences (addrs : list Z) (a : Z) : nat := count_occ Z.eq_dec addrs a.

(** The first occurrence of [w] in [addrs] comes before every occurrence
    of [b]. *)
Definition first_before (addrs : list Z) (w b : Z) : Prop :=
  exists earlier later,
    addrs = earlier ++ w :: later /\ ~ In w earlier /\ ~ In b earlier.

(** ** What a call adds to the trace, and what it returns *)

(** Whatever the state, [m] only appends events to the trace, and the
    events it appends satisfy [P]. *)
Definition emits {A} (m : M A) (P : list event -> Prop) : Prop :=
  forall s, exists evs, trace (snd (m s)) = trace s ++ evs /\ P evs.

(** Every event of [evs] is of the class [c]. *)
Definition only (c : event -> bool) (evs : list event) : Prop :=
  forallb c evs = true.

(** The event does not show a stabilized value. *)
Definition not_a_value (e : event) : bool :=
  match e with
  | EvPrint (MsgValue _ _ _ _) => false
  | _ => true
  end.

(** The event is neither an acquisition nor a release of the handle. *)
Definition not_handle (e : event) : bool := negb (handle_event e).

(** [m1] and [m2] end the same way (the same value returned, or the same
    exception raised) whatever the states they start from. *)
Definition same_result {A} (m1 m2 : M A) : Prop :=
  forall s1 s2, fst (m1 s1) = fst (m2 s2).

(** The event is not a tick of the refresh wait. *)
Definition not_sleep (e : event) : bool :=
  match e with
  | EvSleep => false
  | _ => true
  end.

(** The events of one iteration of the loop keep the handle within the
    iteration: either the handle is not touched, or it is acquired once,
    with no wait tick before, and released by the last event. *)
Definition scoped (evs : list event) : Prop :=
  only not_handle evs \/
  exists before inside ok,
    evs = before ++ EvAcquire :: inside ++ [EvRelease ok] /\
    only not_handle before /\ only not_sleep before /\
    only not_handle inside.

(** The event is neither about the handle nor a wait tick. *)
Definition quiet (e : event) : bool := not_handle e && not_sleep e.

(** ** The loader, node by node *)

(** The text of an [Offset] element as [parse_offsets] reads it:
    [(n.text or "").strip().lower().replace("0x", "")]. *)
Definition offset_text (n : option string) : string :=
  PyStr.replace "0x" EmptyString (PyStr.lower (PyStr.strip (text_or_empty n))).

(** The definition [d] is what the entry [entry] loads as: its address
    specification parses to the module and base offset of [d], and its
    offsets, reversed, are those of [d]. *)
Definition loads_as (entry : CheatEntry) (d : chain) : Prop :=
  parse_address_spec (text_or_empty (Address entry)) = Return (fst d) /\
  entry_offsets entry = Return (snd d).

(** A signed 32-bit value. *)
Definition is_int32 (v : Z) : Prop := - 2 ^ 31 <= v < 2 ^ 31.

(** Where a tallied pair comes from: an address that is not 0 and the
    value that a read at that address returned. *)
Definition was_read (pm : Pymem) (p : Z * Z) : Prop :=
  fst p <> 0 /\ exists s s', read_value pm (fst p) s = (Return (snd p), s').

(** ** The process list and the events, in words *)

(** The process has a name, not empty, that is [name] up to case: the test
    of [find_pid_by_name]. *)
Definition process_matches (name : string) (p : process_info) : bool :=
  match info_name p with
  | Some (String _ _ as n) => String.eqb (PyStr.lower n) (PyStr.lower name)
  | _ => false
  end.

(** The event is not the acquisition of the handle. *)
Definition not_acquire (e : event) : bool :=
  match e with
  | EvAcquire => false
  | _ => true
  end.

(** ** The charts *)

Module Display.

Definition ESC : string := String (ascii_of_N 27) EmptyString.
Definition RESET : string := (ESC ++ "[0m")%string.
Definition MAGENTA : string := (ESC ++ "[95m")%string.
Definition GREEN : string := (ESC ++ "[92m")%string.
Definition BOLD : string := (ESC ++ "[1m")%string.

(** [c * n] for a one-character [c]. *)
Fixpoint times (c : ascii) (n : nat) : string :=
  match n with
  | O => EmptyString
  | S k => String c (times c k)
  end.

(** [f"{s:<{width}}"]: [s] padded with spaces on the right up to [width]
    characters, and left as it is when it is longer. *)
Definition ljust (width : nat) (s : string) : string :=
  (s ++ times " " (width - String.length s))%string.

(** [sep.join(l)] *)
Fixpoint join (sep : string) (l : list string) : string :=
  match l with
  | [] => EmptyString
  | [x] => x
  | x :: rest => (x ++ sep ++ join sep rest)%string
  end.

(** [needle in hay], for strings. *)
Fixpoint infix (needle hay : string) : bool :=
  prefix needle hay ||
  match hay with
  | EmptyString => false
  | String _ rest => infix needle rest
  end.

(** [EVIDENCE_MAP] *)
Definition EVIDENCE_MAP : list (string * list string) :=
  [("Spirit", ["EMF Level 5"; "Spirit Box"; "Ghost Writing"]);
   ("Wraith", ["EMF Level 5"; "Spirit Box"; "D.O.T.S Projector"]);
   ("Phantom", ["Spirit Box"; "D.O.T.S Projector"; "Fingerprints"]);
   ("Poltergeist", ["Spirit Box"; "Ghost Writing"; "Fingerprints"]);
   ("Banshee", ["D.O.T.S Projector"; "Fingerprints"; "Ghost Orb"]);
   ("Jinn", ["EMF Level 5"; "Freezing Temperatures"; "Fingerprints"]);
   ("Mare", ["Ghost Orb"; "Spirit Box"; "Ghost Writing"]);
   ("Revenant", ["Freezing Temperatures"; "Ghost Writing"; "Ghost Orb"]);
   ("Shade", ["EMF Level 5"; "Freezing Temperatures"; "Ghost Writing"]);
   ("Demon", ["Freezing Temperatures"; "Fingerprints"; "Ghost Writing"]);
   ("Yurei", ["Freezing Temperatures"; "D.O.T.S Projector"; "Ghost Orb"]);
   ("Oni", ["EMF Level 5"; "D.O.T.S Projector"; "Freezing Temperatures"]);
   ("Yokai", ["Spirit Box"; "Ghost Orb"; "D.O.T.S Projector"]);
   ("Hantu", ["Freezing Temperatures"; "Fingerprints"; "Ghost Orb"]);
   ("Goryo", ["EMF Level 5"; "D.O.T.S Projector"; "Fingerprints"]);
   ("Myling", ["EMF Level 5"; "Fingerprints"; "Ghost Writing"]);
   ("Onryo", ["Spirit Box"; "Freezing Temperatures"; "Ghost Orb"]);
   ("The Twins", ["EMF Level 5"; "Spirit Box"; "Freezing Temperatures"]);
   ("Raiju", ["EMF Level 5"; "D.O.T.S Projector"; "Ghost Orb"]);
   ("Obake", ["EMF Level 5"; "Fingerprints"; "Ghost Orb"]);
   ("The Mimic", ["Spirit Box"; "Fingerprints"; "Freezing Temperatures";
                  "(+Ghost Orb hidden)"]);
   ("Moroi", ["Spirit Box"; "Ghost Writing"; "Freezing Temperatures"]);
   ("Deogen", ["Spirit Box"; "Ghost Writing"; "D.O.T.S Projector"]);
   ("Thaye", ["Ghost Orb"; "Ghost Writing"; "D.O.T.S Projector"])].

(** [ALL_EVIDENCES], in display order. *)
Definition ALL_EVIDENCES : list string :=
  ["EMF Level 5"; "Spirit Box"; "Ghost Writing"; "Fingerprints";
   "Freezing Temperatures"; "Ghost Orb"; "D.O.T.S Projector"].

(** [EVIDENCE_MAP.get(key, [])] *)
Fixpoint evidence_get (d : list (string * list string)) (key : string) : list string :=
  match d with
  | [] => []
  | (k, v) :: rest => if String.eqb k key then v else evidence_get rest key
  end.

(** A string is a true value unless it is empty. *)
Definition truthy (s : string) : bool :=
  match s with
  | EmptyString => false
  | String _ _ => true
  end.

(** The grid of [draw_ghost_chart]. *)
Definition ghost_names : list (list string) :=
  [["Spirit"; "Wraith"; "Phantom"];
   ["Poltergeist"; "Banshee"; "Jinn"];
   ["Mare"; "Revenant"; "Shade"];
   ["Demon"; "Yurei"; "Oni"];
   ["Yokai"; "Hantu"; "Goryo"];
   ["Myling"; "Onryo"; "The Twins"];
   ["Raiju"; "Obake"; "The Mimic"];
   ["Moroi"; "Deogen"; "Thaye"]].

(** [current_ghost and g.lower() == current_ghost.lower()] *)
Definition ghost_highlighted (current_ghost g : string) : bool :=
  truthy current_ghost && String.eqb (PyStr.lower g) (PyStr.lower current_ghost).

Definition ghost_cell (current_ghost g : string) : string :=
  if ghost_highlighted current_ghost g
  then (BOLD ++ GREEN ++ ljust 12 g ++ RESET)%string
  else ljust 12 g.

(** The separator line; [blank] tells whether the text ends with a
    newline of its own. *)
Definition rule (blank : bool) : string :=
  (MAGENTA ++ times "-" 40 ++ RESET
   ++ if blank then String (ascii_of_N 10) EmptyString else EmptyString)%string.

(** [draw_ghost_chart]: the texts it prints, one per call of [print]. *)
Definition draw_ghost_chart (current_ghost : string) : list string :=
  map (fun row => join "  " (map (ghost_cell current_ghost) row)) ghost_names
  ++ [rule true].

(** [ghost_evidence] of [draw_evidence_chart]. *)
Definition ghost_evidence (current_ghost : string) : list string :=
  if truthy current_ghost
  then map PyStr.lower (evidence_get EVIDENCE_MAP current_ghost)
  else [].

(** [any(ev.lower() in ge or ge in ev.lower() for ge in ghost_evidence)] *)
Definition evidence_matches (ghost_evidence : list string) (ev : string) : bool :=
  existsb (fun ge => infix (PyStr.lower ev) ge || infix ge (PyStr.lower ev))
          ghost_evidence.

Definition evidence_cell (ghost_evidence : list string) (ev : string) : string :=
  if evidence_matches ghost_evidence ev
  then (BOLD ++ GREEN ++ ljust 23 ev ++ RESET)%string
  else ljust 23 ev.

(** [[l[i:i + 2] for i in range(0, len(l), 2)]] *)
Fixpoint rows_of_two (l : list string) : list (list string) :=
  match l with
  | a :: b :: rest => [a; b] :: rows_of_two rest
  | [a] => [[a]]
  | [] => []
  end.

(** [draw_evidence_chart]: the texts it prints, one per call of [print]. *)
Definition draw_evidence_chart (current_ghost : string) : list string :=
  map (fun row => join "  " (map (evidence_cell (ghost_evidence current_ghost)) row))
      (rows_of_two ALL_EVIDENCES)
  ++ [rule false].

(** The ghost that [main] shows for a value. *)
Definition ghost_of (value : Z) : string := dict_get GHOST_TYPES value "Unknown".

(** The value is a key of [GHOST_TYPES]. *)
Definition known (value : Z) : bool := (0 <=? value) && (value <=? 23).

End Display.

(** ** The tally, in words *)

(** [Tallies pm s entries tally s']: going through the definitions in
    order from the state [s], the tally is [tally] and the state [s'].
    A definition that does not resolve, one that resolves to 0 and one
    whose value cannot be read add nothing; a definition that resolves to
    an address, not 0, where the value is read adds that address with
    that value. *)
Inductive Tallies (pm : Pymem) : St -> list chain -> list (Z * Z) -> St -> Prop :=
| Tallies_done : forall s, Tallies pm s [] [] s
| Tallies_unresolved : forall s module_name base_offset offsets rest tally s1 s',
    resolve_pointer pm module_name base_offset offsets s = (Return None, s1) ->
    Tallies pm s1 rest tally s' ->
    Tallies pm s ((module_name, base_offset, offsets) :: rest) tally s'
| Tallies_null : forall s module_name base_offset offsets rest tally s1 s',
    resolve_pointer pm module_name base_offset offsets s = (Return (Some 0), s1) ->
    Tallies pm s1 rest tally s' ->
    Tallies pm s ((module_name, base_offset, offsets) :: rest) tally s'
| Tallies_unreadable : forall s module_name base_offset offsets rest tally a e s1 s2 s',
    resolve_pointer pm module_name base_offset offsets s = (Return (Some a), s1) ->
    a <> 0 ->
    read_value pm a s1 = (Raise e, s2) ->
    Tallies pm s2 rest tally s' ->
    Tallies pm s ((module_name, base_offset, offsets) :: rest) tally s'
| Tallies_read : forall s module_name base_offset offsets rest tally a v s1 s2 s',
    resolve_pointer pm module_name base_offset offsets s = (Return (Some a), s1) ->
    a <> 0 ->
    read_value pm a s1 = (Return v, s2) ->
    Tallies pm s2 rest tally s' ->
    Tallies pm s ((module_name, base_offset, offsets) :: rest) ((a, v) :: tally) s'.

(** The definition gives nothing to tally, whenever it is tried: it does
    not resolve, or to 0, or to an address where the value cannot be read. *)
Definition gives_nothing (pm : Pymem) (entry : chain) : Prop :=
  forall s a,
    fst (resolve_pointer pm (fst (fst entry)) (snd (fst entry)) (snd entry) s)
    = Return (Some a) ->
    a = 0 \/ forall s', exists e, fst (read_value pm a s') = Raise e.

(** What the resolver returns for the definition [entry], run from [s]. *)
Definition resolves_to (pm : Pymem) (entry : chain) (s : St) : outcome (option Z) :=
  fst (resolve_pointer pm (fst (fst entry)) (snd (fst entry)) (snd entry) s).

(** * Properties *)

(** ** Strings without the separator *)

Section Contains.
Variable sep : ascii.

Lemma contains_cons_false (c : ascii) (s : string) :
  PyStr.contains sep (String c s) = false ->
  Ascii.eqb c sep = false /\ PyStr.contains sep s = false.
Proof.
  simpl. intros H. apply orb_false_iff in H. exact H.
Qed.

Lemma contains_lstrip (s : string) :
  PyStr.contains sep s = false -> PyStr.contains sep (PyStr.lstrip s) = false.
Proof.
  induction s as [|c s IH]; intros H; [reflexivity|].
  cbn [PyStr.lstrip]. destruct (PyStr.isspace c); [|exact H].
  apply IH. apply (contains_cons_false _ _ H).
Qed.

Lemma contains_rstrip (s : string) :
  PyStr.contains sep s = false -> PyStr.contains sep (PyStr.rstrip s) = false.
Proof.
  induction s as [|c s IH]; intros H; [reflexivity|].
  destruct (contains_cons_false _ _ H) as [Hc Hs].
  specialize (IH Hs). cbn [PyStr.rstrip].
  destruct (PyStr.rstrip s) as [|c' r'].
  - destruct (PyStr.isspace c); [reflexivity|].
    simpl. rewrite Hc. reflexivity.
  - cbn [PyStr.contains] in *. rewrite Hc. exact IH.
Qed.

Lemma contains_strip (s : string) :
  PyStr.contains sep s = false -> PyStr.contains sep (PyStr.strip s) = false.
Proof.
  intros H. unfold PyStr.strip. apply contains_rstrip, contains_lstrip, H.
Qed.

Lemma contains_append (a b : string) :
  PyStr.contains sep (a ++ b)%string = PyStr.contains sep a || PyStr.contains sep b.
Proof.
  induction a as [|c a IH]; simpl; [reflexivity|].
  rewrite IH, orb_assoc. reflexivity.
Qed.

Lemma contains_replace_from (old new s : string) :
  PyStr.contains sep new = false ->
  PyStr.contains sep s = false ->
  forall skip, PyStr.contains sep (PyStr.replace_from old new s skip) = false.
Proof.
  intros Hnew. induction s as [|c s IH]; intros H skip; [reflexivity|].
  destruct (contains_cons_false _ _ H) as [Hc Hs].
  cbn [PyStr.replace_from]. destruct skip as [|k]; [|apply IH, Hs].
  destruct (prefix old (String c s)).
  - rewrite contains_append, Hnew. apply IH, Hs.
  - cbn [PyStr.contains]. rewrite Hc. apply IH, Hs.
Qed.

Lemma split1_without_sep (s : string) :
  PyStr.contains sep s = false -> PyStr.split1 sep s = [s].
Proof.
  induction s as [|c s IH]; intros H; [reflexivity|].
  destruct (contains_cons_false _ _ H) as [Hc Hs].
  cbn [PyStr.split1]. rewrite Hc, (IH Hs). reflexivity.
Qed.

End Contains.

(** ** The loader *)

(** C6.  Address-spec parsing: ["Core+0x1A2B"] gives [("Core", 0x1A2B)];
    ["Core + 1A2B"], with no [0x] and with spaces around the separator,
    gives the same, and so does that text between double quotes and spaces;
    and every text that has no ['+'] in it makes the parse fail: the
    unpacking of the split raises [ValueError]. *)
Theorem parse_address_spec_examples_and_missing_separator :
  parse_address_spec "Core+0x1A2B" = Return ("Core", 0x1A2B) /\
  parse_address_spec "Core + 1A2B" = Return ("Core", 0x1A2B) /\
  parse_address_spec (" " ++ PyStr.dquote ++ "Core + 1A2B" ++ PyStr.dquote ++ "  ")%string
    = Return ("Core", 0x1A2B) /\
  forall spec : string,
    PyStr.contains "+" spec = false -> parse_address_spec spec = Raise ValueError.
Proof.
  split; [reflexivity|]. split; [reflexivity|]. split; [reflexivity|].
  intros spec H. unfold parse_address_spec.
  rewrite split1_without_sep; [reflexivity|].
  apply contains_replace_from; [reflexivity|].
  apply contains_strip, H.
Qed.

Lemma parse_address_spec_missing_separator_witness :
  PyStr.contains "+" "Core0x1A2B" = false /\
  parse_address_spec "Core0x1A2B" = Raise ValueError.
Proof.
  split; [reflexivity|].
  apply (proj2 (proj2 (proj2 parse_address_spec_examples_and_missing_separator))).
  reflexivity.
Defined.

Lemma entry_offsets_reversed (entry : CheatEntry) (offsets : list Z) :
  entry_offsets entry = Return offsets ->
  exists file_order,
    parse_offsets (offset_nodes entry) = Return file_order /\ offsets = rev file_order.
Proof.
  unfold entry_offsets, offset_nodes. destruct (Offsets entry) as [nodes|].
  - destruct (parse_offsets nodes) as [offs|e] eqn:E; simpl; intros H.
    + injection H as <-. exists offs. split; reflexivity.
    + discriminate H.
  - intros H. injection H as <-. exists []. split; reflexivity.
Qed.

Lemma load_entries_from_stores_reversed (entries : list CheatEntry) :
  forall parsed defs,
    load_entries_from entries parsed = Return defs ->
    exists added,
      defs = parsed ++ added /\
      Forall2 stores_reversed (filter kept entries) added.
Proof.
  induction entries as [|entry rest IH]; intros parsed defs H.
  - injection H as <-. exists []. rewrite app_nil_r. split; [reflexivity|constructor].
  - cbn [load_entries_from] in H.
    destruct (entry_offsets entry) as [offsets|e] eqn:Eo; [|discriminate H].
    cbn [obind] in H. cbn [filter]. unfold kept at 1.
    destruct (no_address (Address entry)); cbn [negb].
    + apply IH, H.
    + destruct (parse_address_spec (text_or_empty (Address entry)))
        as [[module_name base_offset]|e] eqn:Ea; [|discriminate H].
      cbn [obind] in H. destruct (IH _ _ H) as (added & -> & HF).
      exists ((module_name, base_offset, offsets) :: added).
      split; [rewrite <- app_assoc; reflexivity|].
      constructor; [|exact HF].
      destruct (entry_offsets_reversed _ _ Eo) as (file_order & Hp & ->).
      exists file_order. split; [exact Hp|reflexivity].
Qed.

(** C5.  The loader reverses the parsed offset list before it stores it:
    when the load succeeds, the definitions are those of the entries that
    have an address, in file order, each with the parsed offsets of its
    entry reversed.  File-order offsets [[0x8, 0x4]] are stored as
    [[0x4, 0x8]], and the resolver uses them in that order. *)
Theorem load_entries_reverses_offsets :
  (forall entries defs,
      load_entries entries = Return defs ->
      Forall2 stores_reversed (filter kept entries) defs) /\
  load_entries [{| Address := Some "Core+0x10";
                   Offsets := Some [Some "0x8"; Some "0x4"] |}]
    = Return [("Core", 0x10, [0x4; 0x8])] /\
  match load_entries [{| Address := Some "Core+0x10";
                         Offsets := Some [Some "0x8"; Some "0x4"] |}] with
  | Return [(module_name, base_offset, offsets)] =>
      fst (resolve_pointer (Image.handle Fixture.chain_only)
                           module_name base_offset offsets s0)
      = Return (Some 0x3008)
  | _ => False
  end.
Proof.
  split; [|split].
  - intros entries defs H.
    destruct (load_entries_from_stores_reversed _ _ _ H) as (added & -> & HF).
    exact HF.
  - reflexivity.
  - vm_compute. reflexivity.
Qed.

Lemma load_entries_reverses_offsets_witness :
  Forall2 stores_reversed
    (filter kept [{| Address := Some "Core+0x10";
                     Offsets := Some [Some "0x8"; Some "0x4"] |};
                  {| Address := None; Offsets := Some [Some "0x1"] |}])
    [("Core", 0x10, [0x4; 0x8])].
Proof.
  apply (proj1 load_entries_reverses_offsets). reflexivity.
Defined.

(** ** The resolver *)

Section Resolver.
Variable pm : Pymem.

Lemma walk_spec_follow (offsets : list Z) :
  forall addr s,
    walk_spec pm addr offsets s
    = bind (follow pm (removelast offsets) addr)
           (fun a => ret (a + last offsets 0)) s.
Proof.
  induction offsets as [|off rest IH]; intros addr s; [reflexivity|].
  destruct rest as [|off' rest']; [reflexivity|].
  change (removelast (off :: off' :: rest')) with (off :: removelast (off' :: rest')).
  change (last (off :: off' :: rest') 0) with (last (off' :: rest') 0).
  change (walk_spec pm addr (off :: off' :: rest') s)
    with (bind (pm_read pm (addr + off) 8)
               (fun pointer =>
                  walk_spec pm (int_from_bytes_little pointer) (off' :: rest')) s).
  cbn [follow]. unfold bind at 1 2 3.
  destruct (pm_read pm (addr + off) 8 s) as [[pointer|e] s1]; [|reflexivity].
  apply IH.
Qed.

Lemma follow_sound (offs : list Z) :
  forall addr s final s',
    follow pm offs addr s = (Return final, s') ->
    Follows pm (clock s) addr offs final.
Proof.
  induction offs as [|off rest IH]; intros addr s final s' H.
  - injection H as <- _. constructor.
  - cbn [follow] in H. unfold bind, pm_read, ask in H.
    destruct (read_bytes pm (clock s) (addr + off) 8) as [pointer|e] eqn:E;
      [|discriminate H].
    econstructor; [exact E|]. apply (IH _ _ _ _ H).
Qed.

Lemma follow_complete (offs : list Z) :
  forall t addr final,
    Follows pm t addr offs final ->
    forall tr,
      follow pm offs addr (mkSt t tr)
      = (Return final, mkSt (List.length offs + t) tr).
Proof.
  induction offs as [|off rest IH]; intros t addr final H tr;
    inversion H; subst.
  - reflexivity.
  - cbn [follow]. unfold bind, pm_read, ask. cbn [clock trace].
    match goal with E : read_bytes _ _ _ _ = _ |- _ => rewrite E end.
    rewrite (IH _ _ _ ltac:(eassumption)).
    cbn [List.length]. rewrite Nat.add_succ_r. reflexivity.
Qed.

Lemma follow_trace (offs : list Z) :
  forall addr s r s', follow pm offs addr s = (r, s') -> trace s' = trace s.
Proof.
  induction offs as [|off rest IH]; intros addr s r s' H.
  - injection H as _ <-. reflexivity.
  - cbn [follow] in H. unfold bind, pm_read, ask in H.
    destruct (read_bytes pm (clock s) (addr + off) 8) as [pointer|e].
    + apply IH in H. exact H.
    + injection H as _ <-. reflexivity.
Qed.

(** The resolver returns, whatever the handle answers, and leaves no event. *)
Lemma resolve_pointer_returns (module_name : string) (base_offset : Z)
    (offsets : list Z) (s : St) :
  exists r s',
    resolve_pointer pm module_name base_offset offsets s = (Return r, s') /\
    trace s' = trace s.
Proof.
  unfold resolve_pointer, try_except, bind, pm_read, ask, ret, raise.
  destruct (module_from_name pm (clock s) module_name) as [[b|]|e];
    [|eexists _, _; split; reflexivity..].
  cbn [clock trace].
  destruct (read_bytes pm (S (clock s)) (b + base_offset) 8) as [pointer|e];
    [|eexists _, _; split; reflexivity].
  destruct (follow pm (removelast offsets) (int_from_bytes_little pointer) _)
    as [[a|e] s1] eqn:F;
    apply follow_trace in F; eexists _, _; split; try reflexivity; exact F.
Qed.

Lemma resolve_pointer_some_iff (module_name : string) (base_offset : Z)
    (offsets : list Z) (s : St) (final : Z) :
  (exists s', resolve_pointer pm module_name base_offset offsets s
              = (Return (Some final), s'))
  <-> Resolves pm (clock s) module_name base_offset offsets final.
Proof.
  unfold Resolves, resolve_pointer, try_except, bind, pm_read, ask, ret, raise.
  split.
  - intros [s' H].
    destruct (module_from_name pm (clock s) module_name) as [[b|]|e] eqn:Em;
      [|discriminate H..].
    cbn [clock trace] in H.
    destruct (read_bytes pm (S (clock s)) (b + base_offset) 8) as [pointer|e] eqn:Er;
      [|discriminate H].
    destruct (follow pm (removelast offsets) (int_from_bytes_little pointer) _)
      as [[a|e] s1] eqn:F; [|discriminate H].
    injection H as <- _. apply follow_sound in F.
    exists b, pointer, a. repeat split; assumption.
  - intros (b & pointer & a & Hm & Hr & Hf & ->).
    rewrite Hm. cbn [clock trace]. rewrite Hr.
    rewrite (follow_complete _ _ _ _ Hf). eexists. reflexivity.
Qed.

End Resolver.

(** C4.  The resolver reads the 8-byte little-endian pointer at
    [module_base + base_offset], then, for every offset but the last one,
    the pointer at [addr + offset], and adds the last offset with no
    further read (0 when there is no offset): it is the resolver that the
    specification words.  With module base 0x1000, base offset 0x10, the
    pointer 0x2000 at 0x1010, the offsets [[0x4, 0x8]] and the pointer
    0x3000 at 0x2004, it returns 0x3008 after the module lookup and two
    reads, nothing being readable at 0x3008. *)
Theorem resolve_pointer_walks_all_but_last :
  (forall pm module_name base_offset offsets s,
      resolve_pointer pm module_name base_offset offsets s
      = resolve_spec pm module_name base_offset offsets s) /\
  resolve_pointer (Image.handle Fixture.chain_only) "Core" 0x10 [0x4; 0x8] s0
    = (Return (Some 0x3008), mkSt 3 []) /\
  (forall t length,
      read_bytes (Image.handle Fixture.chain_only) t 0x3008 length
      = Raise MemoryReadError).
Proof.
  split; [|split; reflexivity].
  intros pm module_name base_offset offsets s.
  unfold resolve_spec.
  unfold resolve_pointer, try_except, bind, pm_read, ask, ret, raise.
  destruct (module_from_name pm (clock s) module_name) as [[b|]|e];
    try reflexivity.
  cbn [clock trace].
  destruct (read_bytes pm (S (clock s)) (b + base_offset) 8) as [pointer|e];
    [|reflexivity].
  rewrite walk_spec_follow. unfold bind, ret.
  destruct (follow pm (removelast offsets) (int_from_bytes_little pointer) _)
    as [[a|e] s1]; reflexivity.
Qed.

(** C7.  Whatever the handle answers at any step (a module that is not
    found, a lookup or a read that raises), the resolver returns and does
    not raise; and it returns an address only when every step of the chain
    succeeded, that address being the end of the whole chain: in every
    other case it returns [None], never an address reached part of the
    way.  So a failed read in the middle of a chain, or an unknown module,
    gives [None]. *)
Theorem resolve_pointer_all_or_nothing :
  (forall pm module_name base_offset offsets s,
      exists r s',
        resolve_pointer pm module_name base_offset offsets s = (Return r, s') /\
        trace s' = trace s /\
        (forall final,
            r = Some final
            <-> Resolves pm (clock s) module_name base_offset offsets final)) /\
  fst (resolve_pointer (Image.handle Fixture.chain_only)
                       "Core" 0x10 [0x4; 0x8; 0xC] s0) = Return None /\
  fst (resolve_pointer (Image.handle Fixture.chain_only)
                       "Other" 0x10 [0x4; 0x8] s0) = Return None.
Proof.
  split; [|split; reflexivity].
  intros pm module_name base_offset offsets s.
  destruct (resolve_pointer_returns pm module_name base_offset offsets s)
    as (r & s' & H & Ht).
  exists r, s'. split; [exact H|]. split; [exact Ht|].
  intros final. split.
  - intros ->. apply (resolve_pointer_some_iff pm _ _ _ s). exists s'. exact H.
  - intros HR. apply (resolve_pointer_some_iff pm _ _ _ s) in HR.
    destruct HR as [s'' H']. rewrite H in H'. injection H' as E _. exact E.
Qed.

(** ** The vote *)

Section Vote.

Lemma first_occurrence (w : Z) (l : list Z) :
  In w l -> exists earlier later, l = earlier ++ w :: later /\ ~ In w earlier.
Proof.
  induction l as [|x l IH]; intros H; [destruct H|].
  destruct (Z.eq_dec x w) as [->|Hx].
  - exists [], l. split; [reflexivity|]. intros [].
  - destruct H as [H|H]; [contradiction|].
    destruct (IH H) as (earlier & later & -> & Hn).
    exists (x :: earlier), later. split; [reflexivity|].
    intros [E|E]; [exact (Hx E)|exact (Hn E)].
Qed.

(** *** The keys of a counter *)

Lemma counter_add_keys_old (counter : list (Z * nat)) (a : Z) :
  In a (map fst counter) ->
  map fst (counter_add counter a) = map fst counter.
Proof.
  induction counter as [|[k n] rest IH]; intros H; [destruct H|].
  cbn [counter_add]. destruct (Z.eqb_spec k a) as [E|E]; [reflexivity|].
  cbn [map fst]. f_equal. apply IH.
  destruct H as [H|H]; [contradiction|exact H].
Qed.

Lemma counter_add_keys_new (counter : list (Z * nat)) (a : Z) :
  ~ In a (map fst counter) ->
  map fst (counter_add counter a) = map fst counter ++ [a].
Proof.
  induction counter as [|[k n] rest IH]; intros H; [reflexivity|].
  cbn [counter_add]. destruct (Z.eqb_spec k a) as [E|E].
  - exfalso. apply H. left. exact E.
  - cbn [map fst app]. f_equal. apply IH. intros Hin. apply H. right. exact Hin.
Qed.

(** *** The counts of a counter whose keys are distinct *)

Lemma counter_add_counts_old (f : Z -> nat) (keys : list Z) (a : Z) :
  NoDup keys -> In a keys ->
  counter_add (map (fun k => (k, f k)) keys) a
  = map (fun k => (k, if k =? a then S (f k) else f k)) keys.
Proof.
  induction keys as [|k keys IH]; intros Hnd Hin; [destruct Hin|].
  inversion Hnd as [|? ? Hk Hnd']; subst.
  cbn [map counter_add]. destruct (Z.eqb_spec k a) as [E|E].
  - f_equal. apply map_ext_in. intros k' Hk'.
    destruct (Z.eqb_spec k' a) as [E'|E']; [|reflexivity].
    exfalso. apply Hk. rewrite E, <- E'. exact Hk'.
  - f_equal. apply IH; [exact Hnd'|].
    destruct Hin as [Hin|Hin]; [contradiction|exact Hin].
Qed.

Lemma counter_add_counts_new (f : Z -> nat) (keys : list Z) (a : Z) :
  ~ In a keys ->
  counter_add (map (fun k => (k, f k)) keys) a
  = map (fun k => (k, f k)) keys ++ [(a, 1%nat)].
Proof.
  induction keys as [|k keys IH]; intros Hin; [reflexivity|].
  cbn [map counter_add]. destruct (Z.eqb_spec k a) as [E|E].
  - exfalso. apply Hin. left. exact E.
  - cbn [app]. f_equal. apply IH. intros H. apply Hin. right. exact H.
Qed.

Lemma Counter_snoc (l : list Z) (a : Z) :
  Counter (l ++ [a]) = counter_add (Counter l) a.
Proof.
  unfold Counter. rewrite fold_left_app. reflexivity.
Qed.

Lemma occurrences_snoc (l : list Z) (a k : Z) :
  occurrences (l ++ [a]) k
  = if k =? a then S (occurrences l k) else occurrences l k.
Proof.
  unfold occurrences. rewrite count_occ_app. cbn [count_occ].
  destruct (Z.eq_dec a k) as [->|E].
  - rewrite Z.eqb_refl. apply Nat.add_1_r.
  - destruct (Z.eqb_spec k a) as [E'|E']; [congruence|apply Nat.add_0_r].
Qed.

(** The counter of [l]: its keys are the distinct elements of [l], and
    each key comes with the number of its occurrences. *)
Lemma Counter_spec (l : list Z) :
  NoDup (map fst (Counter l)) /\
  (forall k, In k (map fst (Counter l)) <-> In k l) /\
  Counter l = map (fun k => (k, occurrences l k)) (map fst (Counter l)).
Proof.
  induction l as [|a l (Hnd & Hin & Heq)] using rev_ind.
  - split; [constructor|]. split; [reflexivity|reflexivity].
  - rewrite Counter_snoc.
    destruct (in_dec Z.eq_dec a (map fst (Counter l))) as [Ha|Ha].
    + rewrite (counter_add_keys_old _ _ Ha).
      split; [exact Hnd|]. split.
      * intros k. rewrite Hin, in_app_iff. cbn [In]. split; [tauto|].
        intros [H|[<-|[]]]; [exact H|apply Hin, Ha].
      * rewrite Heq at 1. rewrite (counter_add_counts_old _ _ _ Hnd Ha).
        apply map_ext. intros k. rewrite occurrences_snoc. reflexivity.
    + rewrite (counter_add_keys_new _ _ Ha).
      split; [|split].
      * apply NoDup_rev in Hnd.
        rewrite <- (rev_involutive (map fst (Counter l) ++ [a])).
        apply NoDup_rev. rewrite rev_app_distr. cbn [rev app].
        constructor; [|exact Hnd].
        intros H. apply Ha. apply in_rev. exact H.
      * intros k. rewrite !in_app_iff, Hin. reflexivity.
      * rewrite Heq at 1. rewrite (counter_add_counts_new _ _ _ Ha).
        rewrite map_app. cbn [map]. f_equal.
        -- apply map_ext_in. intros k Hk. rewrite occurrences_snoc.
           destruct (Z.eqb_spec k a) as [->|E]; [contradiction|reflexivity].
        -- rewrite occurrences_snoc, Z.eqb_refl.
           assert (Hno : ~ In a l) by (intros H; apply Ha, Hin, H).
           unfold occurrences.
           rewrite (proj1 (count_occ_not_In Z.eq_dec l a) Hno). reflexivity.
Qed.

(** The keys of the counter come in the order of their first occurrence. *)
Lemma Counter_keys_order (l : list Z) :
  forall before w after b,
    map fst (Counter l) = before ++ w :: after ->
    In b after ->
    first_before l w b.
Proof.
  induction l as [|a l IH] using rev_ind; intros before w after b Hk Hb.
  - destruct before; discriminate Hk.
  - destruct (Counter_spec l) as (_ & Hin & _).
    rewrite Counter_snoc in Hk.
    assert (Hmore : forall earlier later,
               l = earlier ++ w :: later ->
               l ++ [a] = earlier ++ w :: (later ++ [a])).
    { intros earlier later ->. rewrite <- app_assoc. reflexivity. }
    destruct (in_dec Z.eq_dec a (map fst (Counter l))) as [Ha|Ha].
    + rewrite (counter_add_keys_old _ _ Ha) in Hk.
      destruct (IH _ _ _ _ Hk Hb) as (earlier & later & E & Hw & Hb').
      exists earlier, (later ++ [a]). split; [apply Hmore, E|]. split; assumption.
    + rewrite (counter_add_keys_new _ _ Ha) in Hk.
      destruct (@exists_last _ after) as (after' & z & ->).
      { intros ->. destruct Hb. }
      rewrite app_comm_cons, app_assoc in Hk.
      apply app_inj_tail in Hk. destruct Hk as [Hk <-].
      apply in_app_or in Hb. destruct Hb as [Hb|[<-|[]]].
      * destruct (IH _ _ _ _ Hk Hb) as (earlier & later & E & Hw & Hb').
        exists earlier, (later ++ [a]). split; [apply Hmore, E|]. split; assumption.
      * assert (Hwl : In w l).
        { apply Hin. rewrite Hk. apply in_or_app. right. left. reflexivity. }
        destruct (first_occurrence _ _ Hwl) as (earlier & later & E & Hw).
        exists earlier, (later ++ [a]). split; [apply Hmore, E|].
        split; [exact Hw|].
        intros H. apply Ha, Hin. rewrite E. apply in_or_app. left. exact H.
Qed.

End Vote.

(** [max_by_count] gives the first item of greatest count: the items
    before it have a smaller count, the items after it have no greater one. *)
Lemma max_by_count_first (items : list (Z * nat)) :
  forall best,
    exists before after,
      best :: items = before ++ max_by_count best items :: after /\
      (forall x, In x before -> (snd x < snd (max_by_count best items))%nat) /\
      (forall x, In x after -> (snd x <= snd (max_by_count best items))%nat).
Proof.
  induction items as [|x rest IH]; intros best.
  - exists [], []. split; [reflexivity|]. split; intros ? [].
  - cbn [max_by_count]. destruct (Nat.ltb_spec (snd best) (snd x)) as [Hlt|Hge].
    + destruct (IH x) as (before & after & E & Hb & Ha).
      exists (best :: before), after. split; [rewrite E; reflexivity|].
      split; [|exact Ha].
      intros y [<-|Hy]; [|apply Hb, Hy].
      apply Nat.lt_le_trans with (1 := Hlt).
      assert (Hx : In x (before ++ max_by_count x rest :: after))
        by (rewrite <- E; left; reflexivity).
      apply in_app_or in Hx. destruct Hx as [Hx|[Hx|Hx]].
      * apply Nat.lt_le_incl, Hb, Hx.
      * rewrite Hx. apply Nat.le_refl.
      * apply Ha, Hx.
    + destruct (IH best) as (before & after & E & Hb & Ha).
      destruct before as [|b0 before'].
      * cbn [app] in E. injection E as E1 E2.
        exists [], (x :: rest). split; [rewrite <- E1; reflexivity|].
        split; [intros ? []|].
        rewrite <- E1. intros y [<-|Hy]; [exact Hge|].
        rewrite E1. apply Ha. rewrite <- E2. exact Hy.
      * cbn [app] in E. injection E as <- E2.
        exists (best :: x :: before'), after.
        split; [cbn [app]; do 2 f_equal; exact E2|]. split; [|exact Ha].
        assert (Hbest : (snd best < snd (max_by_count best rest))%nat)
          by (apply Hb; left; reflexivity).
        intros y [<-|[<-|Hy]].
        -- exact Hbest.
        -- apply Nat.le_lt_trans with (1 := Hge). exact Hbest.
        -- apply Hb. right. exact Hy.
Qed.

Lemma Counter_item (l : list Z) (k : Z) (n : nat) :
  In (k, n) (Counter l) -> n = occurrences l k /\ In k l.
Proof.
  destruct (Counter_spec l) as (_ & Hin & Heq). intros H.
  assert (Hk : In k (map fst (Counter l))) by (apply (in_map fst) in H; exact H).
  rewrite Heq in H. apply in_map_iff in H. destruct H as (k' & E & _).
  injection E as -> <-. split; [reflexivity|apply Hin, Hk].
Qed.

Lemma Counter_has (l : list Z) (k : Z) :
  In k l -> In (k, occurrences l k) (Counter l).
Proof.
  destruct (Counter_spec l) as (_ & Hin & Heq). intros H.
  rewrite Heq. apply in_map_iff. exists k. split; [reflexivity|apply Hin, H].
Qed.

(** The winner of the vote over a non-empty tally. *)
Lemma vote_winner (r : Z * Z) (rest : list (Z * Z)) :
  let addrs := map fst (r :: rest) in
  exists best_addr count,
    vote (r :: rest) = Return (best_addr, count) /\
    In best_addr addrs /\
    count = occurrences addrs best_addr /\
    (forall a, (occurrences addrs a <= count)%nat) /\
    (forall b, b <> best_addr -> occurrences addrs b = count ->
               first_before addrs best_addr b).
Proof.
  intros addrs. unfold vote. change (map fst (r :: rest)) with addrs.
  assert (Hne : In (fst r) addrs) by (left; reflexivity).
  clearbody addrs.
  pose proof (Counter_has _ _ Hne) as Hc.
  destruct (Counter addrs) as [|x items] eqn:EC; [destruct Hc|].
  cbn [most_common_1 first_item].
  destruct (max_by_count_first items x) as (before & after & E & Hb & Ha).
  destruct (max_by_count x items) as [w c] eqn:Ew. cbn [snd] in Hb, Ha.
  exists w, c. split; [reflexivity|].
  assert (Hw : In (w, c) (Counter addrs)).
  { rewrite EC, E. apply in_or_app. right. left. reflexivity. }
  destruct (Counter_item _ _ _ Hw) as [Hcount Hwin].
  assert (Hle : forall a, (occurrences addrs a <= c)%nat).
  { intros a. destruct (in_dec Z.eq_dec a addrs) as [Hin|Hin].
    - pose proof (Counter_has _ _ Hin) as Hitem. rewrite EC, E in Hitem.
      apply in_app_or in Hitem. destruct Hitem as [H|[H|H]].
      + apply Nat.lt_le_incl. apply (Hb _ H).
      + injection H as _ <-. apply Nat.le_refl.
      + apply (Ha _ H).
    - unfold occurrences.
      rewrite (proj1 (count_occ_not_In Z.eq_dec addrs a) Hin). apply Nat.le_0_l. }
  split; [exact Hwin|]. split; [exact Hcount|]. split; [exact Hle|].
  intros b Hbw Hbc.
  assert (Hpos : (0 < c)%nat).
  { rewrite Hcount. apply (proj1 (count_occ_In Z.eq_dec addrs w)). exact Hwin. }
  assert (Hbin : In b addrs).
  { apply (proj2 (count_occ_In Z.eq_dec addrs b)). fold (occurrences addrs b).
    rewrite Hbc. exact Hpos. }
  pose proof (Counter_has _ _ Hbin) as Hitem. rewrite Hbc, EC, E in Hitem.
  apply in_app_or in Hitem. destruct Hitem as [H|[H|H]].
  - exfalso. apply (Nat.lt_irrefl c). apply (Hb _ H).
  - exfalso. apply Hbw. injection H as <-. reflexivity.
  - apply (Counter_keys_order addrs (map fst before) w (map fst after) b).
    + rewrite EC, E, map_app. reflexivity.
    + apply (in_map fst) in H. exact H.
Qed.


(** ** Traces of the monadic calls *)

Section Emits.
Variable c : event -> bool.

Lemma only_nil : only c [].
Proof. reflexivity. Qed.

Lemma only_app (e1 e2 : list event) : only c e1 -> only c e2 -> only c (e1 ++ e2).
Proof.
  unfold only. intros H1 H2. rewrite forallb_app, H1, H2. reflexivity.
Qed.

Lemma only_one (e : event) : c e = true -> only c [e].
Proof. unfold only. cbn. intros ->. reflexivity. Qed.

Lemma emits_ret {A} (a : A) : emits (ret a) (only c).
Proof. intros s. exists []. rewrite app_nil_r. split; [reflexivity|apply only_nil]. Qed.

Lemma emits_raise {A} (e : exn) : emits (@raise A e) (only c).
Proof. intros s. exists []. rewrite app_nil_r. split; [reflexivity|apply only_nil]. Qed.

Lemma emits_lift {A} (o : outcome A) : emits (lift o) (only c).
Proof. intros s. exists []. rewrite app_nil_r. split; [reflexivity|apply only_nil]. Qed.

Lemma emits_ask {A} (oracle : nat -> outcome A) : emits (ask oracle) (only c).
Proof. intros s. exists []. rewrite app_nil_r. split; [reflexivity|apply only_nil]. Qed.

Lemma emits_emit (e : event) : c e = true -> emits (emit e) (only c).
Proof. intros H s. exists [e]. split; [reflexivity|apply only_one, H]. Qed.

Lemma emits_bind {A B} (m : M A) (f : A -> M B) :
  emits m (only c) -> (forall a, emits (f a) (only c)) -> emits (bind m f) (only c).
Proof.
  intros Hm Hf s. unfold bind. destruct (Hm s) as (e1 & E1 & P1).
  destruct (m s) as [[a|e] s1]; cbn [snd] in E1.
  - destruct (Hf a s1) as (e2 & E2 & P2). exists (e1 ++ e2).
    rewrite E2, E1, app_assoc. split; [reflexivity|apply only_app; assumption].
  - exists e1. split; assumption.
Qed.

Lemma emits_try_except {A} (body : M A) (handler : exn -> M A) :
  emits body (only c) -> (forall e, emits (handler e) (only c)) ->
  emits (try_except body handler) (only c).
Proof.
  intros Hm Hf s. unfold try_except. destruct (Hm s) as (e1 & E1 & P1).
  destruct (body s) as [[a|e] s1]; cbn [snd] in E1.
  - exists e1. split; assumption.
  - destruct (Hf e s1) as (e2 & E2 & P2). exists (e1 ++ e2).
    rewrite E2, E1, app_assoc. split; [reflexivity|apply only_app; assumption].
Qed.

End Emits.

Ltac emits_step :=
  first [ apply emits_bind; [|intros ?]
        | apply emits_try_except; [|intros ?]
        | apply emits_ret | apply emits_raise | apply emits_lift | apply emits_ask
        | apply emits_emit; reflexivity ].

Section CycleTraces.
Variable c : event -> bool.

Lemma emits_follow (pm : Pymem) (offs : list Z) :
  forall addr, emits (follow pm offs addr) (only c).
Proof.
  induction offs as [|off rest IH]; intros addr; cbn [follow].
  - apply emits_ret.
  - apply emits_bind; [apply emits_ask|]. intros bs. apply IH.
Qed.

Lemma emits_resolve_pointer (pm : Pymem) module_name base_offset offsets :
  emits (resolve_pointer pm module_name base_offset offsets) (only c).
Proof.
  unfold resolve_pointer, pm_read.
  apply emits_try_except; [|intros ?; apply emits_ret].
  apply emits_bind; [apply emits_ask|]. intros [b|].
  - apply emits_bind; [apply emits_ret|]. intros ?.
    apply emits_bind; [apply emits_ask|]. intros ?.
    apply emits_bind; [apply emits_follow|]. intros ?. apply emits_ret.
  - apply emits_bind; [apply emits_raise|]. intros ?.
    apply emits_bind; [apply emits_ask|]. intros ?.
    apply emits_bind; [apply emits_follow|]. intros ?. apply emits_ret.
Qed.

Lemma emits_read_value (pm : Pymem) (addr : Z) : emits (read_value pm addr) (only c).
Proof.
  unfold read_value, pm_read. repeat emits_step.
Qed.

Lemma emits_collect_one (pm : Pymem) (entry : chain) results :
  emits (collect_one pm entry results) (only c).
Proof.
  destruct entry as [[module_name base_offset] offsets]. unfold collect_one.
  apply emits_bind; [apply emits_resolve_pointer|]. intros [a|]; [|apply emits_ret].
  destruct (a =? 0); [apply emits_ret|].
  apply emits_try_except; [|intros ?; apply emits_ret].
  apply emits_bind; [apply emits_read_value|]. intros ?. apply emits_ret.
Qed.

Lemma emits_collect (pm : Pymem) (entries : list chain) :
  forall results, emits (collect pm entries results) (only c).
Proof.
  induction entries as [|entry rest IH]; intros results; cbn [collect].
  - apply emits_ret.
  - apply emits_bind; [apply emits_collect_one|]. intros ?. apply IH.
Qed.

Lemma emits_aggregate (pm : Pymem) (entries : list chain) :
  emits (aggregate pm entries) (only c).
Proof.
  unfold aggregate.
  apply emits_bind; [apply emits_collect|]. intros [|r rest]; [apply emits_ret|].
  apply emits_bind; [apply emits_lift|]. intros [best_addr count].
  apply emits_bind.
  - apply emits_try_except; [|intros ?; apply emits_ret].
    apply emits_bind; [apply emits_read_value|]. intros ?. apply emits_ret.
  - intros [v|]; apply emits_ret.
Qed.

Variable env : Env.

Lemma emits_print (m : message) :
  c (EvPrint m) = true -> emits (print env m) (only c).
Proof.
  intros H. unfold print. apply emits_bind; [apply emits_ask|]. intros ?.
  apply emits_emit, H.
Qed.

Lemma emits_wait_ticks (n : nat) :
  c EvSleep = true -> emits (wait_ticks env n) (only c).
Proof.
  intros H. induction n as [|k IH]; cbn [wait_ticks].
  - apply emits_ret.
  - apply emits_bind; [apply emits_ask|]. intros [|]; [|apply emits_ret].
    apply emits_bind; [apply emits_emit, H|]. intros ?. exact IH.
Qed.

Lemma emits_wait : c EvSleep = true -> emits (wait env) (only c).
Proof. intros H. apply emits_wait_ticks, H. Qed.

End CycleTraces.

(** ** The tally of a cycle *)

Section Tally.
Variable pm : Pymem.

(** One definition adds nothing to the tally, or one pair whose address is
    not 0; it never raises. *)
Lemma collect_one_returns (entry : chain) (results : list (Z * Z)) (s : St) :
  exists results' s',
    collect_one pm entry results s = (Return results', s') /\
    (results' = results \/
     exists a v, a <> 0 /\ results' = results ++ [(a, v)]).
Proof.
  destruct entry as [[module_name base_offset] offsets].
  unfold collect_one, bind.
  destruct (resolve_pointer_returns pm module_name base_offset offsets s)
    as (r & s1 & -> & _).
  destruct r as [a|]; [|eexists _, _; split; [reflexivity|left; reflexivity]].
  destruct (Z.eqb_spec a 0) as [E|E];
    [eexists _, _; split; [reflexivity|left; reflexivity]|].
  unfold try_except, bind.
  destruct (read_value pm a s1) as [[v|e] s2];
    eexists _, _; (split; [reflexivity|]).
  - right. exists a, v. split; [exact E|reflexivity].
  - left. reflexivity.
Qed.

(** The tally never raises; it extends the list it starts from with
    pairs whose address is not 0. *)
Lemma collect_returns (entries : list chain) :
  forall results s,
    exists added s',
      collect pm entries results s = (Return (results ++ added), s') /\
      (List.length added <= List.length entries)%nat /\
      ~ In 0 (map fst added).
Proof.
  induction entries as [|entry rest IH]; intros results s; cbn [collect].
  - exists [], s. rewrite app_nil_r. split; [reflexivity|].
    split; [apply Nat.le_refl|intros []].
  - unfold bind.
    destruct (collect_one_returns entry results s) as (r1 & s1 & -> & Hr).
    destruct (IH r1 s1) as (added & s' & -> & Hlen & Hno).
    destruct Hr as [->|(a & v & Ha & ->)].
    + exists added, s'. split; [reflexivity|].
      split; [cbn [List.length]; apply Nat.le_le_succ_r, Hlen|exact Hno].
    + exists ((a, v) :: added), s'. rewrite <- app_assoc.
      split; [reflexivity|].
      split; [cbn [List.length]; apply le_n_S, Hlen|].
      cbn [map fst In]. intros [H|H]; [exact (Ha H)|exact (Hno H)].
Qed.

(** A definition that resolves to the address 0 is passed over. *)
Lemma collect_skips_null (module_name : string) (base_offset : Z) (offsets : list Z)
    (rest : list chain) (results : list (Z * Z)) (s s1 : St) :
  resolve_pointer pm module_name base_offset offsets s = (Return (Some 0), s1) ->
  collect pm ((module_name, base_offset, offsets) :: rest) results s
  = collect pm rest results s1.
Proof.
  intros H. cbn [collect]. unfold collect_one, bind. rewrite H. reflexivity.
Qed.

(** A definition that resolves to [a], not 0: when the value read at [a]
    raises, it is passed over; when it returns, the pair is tallied. *)
Lemma collect_reads_value (module_name : string) (base_offset : Z) (offsets : list Z)
    (rest : list chain) (results : list (Z * Z)) (s s1 : St) (a : Z) :
  resolve_pointer pm module_name base_offset offsets s = (Return (Some a), s1) ->
  a <> 0 ->
  collect pm ((module_name, base_offset, offsets) :: rest) results s
  = match read_value pm a s1 with
    | (Return v, s2) => collect pm rest (results ++ [(a, v)]) s2
    | (Raise _, s2) => collect pm rest results s2
    end.
Proof.
  intros H Ha. cbn [collect]. unfold collect_one, bind at 1 2. rewrite H.
  destruct (Z.eqb_spec a 0) as [E|_]; [contradiction|].
  unfold try_except, bind.
  destruct (read_value pm a s1) as [[v|e] s2]; reflexivity.
Qed.

(** A definition that does not resolve is passed over. *)
Lemma collect_skips_unresolved (module_name : string) (base_offset : Z)
    (offsets : list Z) (rest : list chain) (results : list (Z * Z)) (s s1 : St) :
  resolve_pointer pm module_name base_offset offsets s = (Return None, s1) ->
  collect pm ((module_name, base_offset, offsets) :: rest) results s
  = collect pm rest results s1.
Proof.
  intros H. cbn [collect]. unfold collect_one, bind. rewrite H. reflexivity.
Qed.

(** How a cycle ends, from its tally. *)
Lemma aggregate_cases (entries : list chain) (s : St) :
  exists results s1,
    collect pm entries [] s = (Return results, s1) /\
    (List.length results <= List.length entries)%nat /\
    ~ In 0 (map fst results) /\
    match results with
    | [] => aggregate pm entries s = (Return NoConsensus, s1)
    | _ :: _ =>
        exists best_addr count,
          vote results = Return (best_addr, count) /\
          aggregate pm entries s
          = match read_value pm best_addr s1 with
            | (Return v, s2) =>
                (Return (Stabilized {| winning_address := best_addr;
                                       value := v;
                                       agreement_count := count;
                                       total_resolved := List.length results |}), s2)
            | (Raise _, s2) => (Return StabilizationReadFailed, s2)
            end
    end.
Proof.
  destruct (collect_returns entries [] s) as (results & s1 & H & Hlen & Hno).
  cbn [app] in H. exists results, s1.
  split; [exact H|]. split; [exact Hlen|]. split; [exact Hno|].
  destruct results as [|r rest].
  - unfold aggregate, bind. rewrite H. reflexivity.
  - destruct (vote_winner r rest) as (best_addr & count & Hv & _).
    exists best_addr, count. split; [exact Hv|].
    unfold aggregate, bind at 1. rewrite H. cbv beta iota.
    unfold bind at 1, lift. rewrite Hv. unfold bind, try_except, ret.
    destruct (read_value pm best_addr s1) as [[v|e] s2]; reflexivity.
Qed.

End Tally.

Lemma aggregate_after_collect (pm : Pymem) (entries entries' : list chain) (s s' : St) :
  collect pm entries [] s = collect pm entries' [] s' ->
  aggregate pm entries s = aggregate pm entries' s'.
Proof.
  intros H. unfold aggregate, bind at 1 3. rewrite H. reflexivity.
Qed.

(** C10.  A chain that resolves to the address 0 is treated as
    unresolved: the resolver returns 0 as a success, but the cycle passes
    the definition over, so 0 is never among the tallied addresses and the
    definition is not counted; the cycle ends as if the definition were
    not there.  With a null pointer at 0x1030 and address 0 readable, the
    chain to 0 resolves to 0, alone it gives no consensus, and beside the
    chain to 0x3008 it leaves 1 hit out of 1. *)
Theorem null_address_is_left_out_of_the_tally :
  (forall pm module_name base_offset offsets rest results s s1,
      resolve_pointer pm module_name base_offset offsets s = (Return (Some 0), s1) ->
      collect pm ((module_name, base_offset, offsets) :: rest) results s
      = collect pm rest results s1 /\
      aggregate pm ((module_name, base_offset, offsets) :: rest) s
      = aggregate pm rest s1) /\
  (forall pm entries s,
      exists results s',
        collect pm entries [] s = (Return results, s') /\
        ~ In 0 (map fst results)) /\
  fst (resolve_pointer (Image.handle Fixture.null_target) "Core" 0x30 [] s0)
    = Return (Some 0) /\
  fst (read_value (Image.handle Fixture.null_target) 0 s0) = Return 5 /\
  fst (aggregate (Image.handle Fixture.null_target) [Fixture.to_null] s0)
    = Return NoConsensus /\
  fst (aggregate (Image.handle Fixture.null_target)
                 [Fixture.to_null; Fixture.to_3008] s0)
    = Return (Stabilized {| winning_address := 0x3008; value := 7;
                            agreement_count := 1; total_resolved := 1 |}).
Proof.
  split; [|split; [|repeat split; reflexivity]].
  - intros pm module_name base_offset offsets rest results s s1 H.
    split; [apply collect_skips_null, H|].
    apply aggregate_after_collect, collect_skips_null, H.
  - intros pm entries s.
    destruct (collect_returns pm entries [] s) as (added & s' & H & _ & Hno).
    exists added, s'. split; [exact H|exact Hno].
Qed.

Lemma null_address_is_left_out_of_the_tally_witness :
  collect (Image.handle Fixture.null_target)
          [Fixture.to_null; Fixture.to_3008] [] s0
  = collect (Image.handle Fixture.null_target) [Fixture.to_3008] [] (mkSt 2 []) /\
  aggregate (Image.handle Fixture.null_target)
            [Fixture.to_null; Fixture.to_3008] s0
  = aggregate (Image.handle Fixture.null_target) [Fixture.to_3008] (mkSt 2 []).
Proof.
  apply (proj1 null_address_is_left_out_of_the_tally). reflexivity.
Defined.

(** C1, as the code has it.  When an address resolves (and is not 0) but
    the read of its 4-byte value raises, the definition is passed over:
    its address is not added to the tallied addresses and is not counted
    in the total; the cycle ends as if the definition were not there. *)
Theorem failed_value_read_drops_the_address
    (pm : Pymem) (module_name : string) (base_offset : Z) (offsets : list Z)
    (rest : list chain) (results : list (Z * Z)) (s s1 s2 : St) (a : Z) (e : exn) :
  resolve_pointer pm module_name base_offset offsets s = (Return (Some a), s1) ->
  a <> 0 ->
  read_value pm a s1 = (Raise e, s2) ->
  collect pm ((module_name, base_offset, offsets) :: rest) results s
  = collect pm rest results s2 /\
  aggregate pm ((module_name, base_offset, offsets) :: rest) s
  = aggregate pm rest s2.
Proof.
  intros H Ha Hr.
  assert (E : forall results,
             collect pm ((module_name, base_offset, offsets) :: rest) results s
             = collect pm rest results s2).
  { intros results'. rewrite (collect_reads_value pm _ _ _ _ _ _ _ _ H Ha), Hr.
    reflexivity. }
  split; [apply E|]. apply aggregate_after_collect, E.
Qed.

Lemma failed_value_read_drops_the_address_witness :
  collect (Image.handle Fixture.unreadable_target)
          [Fixture.to_3008; Fixture.to_4000] [] s0
  = collect (Image.handle Fixture.unreadable_target) [Fixture.to_4000] [] (mkSt 4 []) /\
  aggregate (Image.handle Fixture.unreadable_target)
            [Fixture.to_3008; Fixture.to_4000] s0
  = aggregate (Image.handle Fixture.unreadable_target) [Fixture.to_4000] (mkSt 4 []).
Proof.
  apply (failed_value_read_drops_the_address
           (Image.handle Fixture.unreadable_target) "Core" 0x10 [0x4; 0x8]
           [Fixture.to_4000] [] s0 (mkSt 3 []) (mkSt 4 []) 0x3008 MemoryReadError).
  - reflexivity.
  - discriminate.
  - reflexivity.
Defined.

(** C1 as stated fails: the chain to 0x3008 resolves, the read of the
    value at 0x3008 raises, and yet 0x3008 is not among the tallied
    addresses and the total is 1, not 2. *)
Lemma failed_value_read_keeps_the_address_counterexample :
  fst (resolve_pointer (Image.handle Fixture.unreadable_target)
                       "Core" 0x10 [0x4; 0x8] s0) = Return (Some 0x3008) /\
  fst (read_value (Image.handle Fixture.unreadable_target) 0x3008 (mkSt 3 []))
    = Raise MemoryReadError /\
  fst (collect (Image.handle Fixture.unreadable_target)
               [Fixture.to_3008; Fixture.to_4000] [] s0) = Return [(0x4000, 9)] /\
  ~ In 0x3008 (map fst [(0x4000, 9)]) /\
  fst (aggregate (Image.handle Fixture.unreadable_target)
                 [Fixture.to_3008; Fixture.to_4000] s0)
    = Return (Stabilized {| winning_address := 0x4000; value := 9;
                            agreement_count := 1; total_resolved := 1 |}).
Proof.
  repeat split; try reflexivity.
  cbn. intros [H|[]]. discriminate H.
Qed.

(** When no definition resolves, nothing is tallied. *)
Lemma collect_nothing_resolves (pm : Pymem) (entries : list chain) :
  (forall module_name base_offset offsets s,
      In (module_name, base_offset, offsets) entries ->
      fst (resolve_pointer pm module_name base_offset offsets s) = Return None) ->
  forall results s, fst (collect pm entries results s) = Return results.
Proof.
  induction entries as [|[[module_name base_offset] offsets] rest IH];
    intros Hnone results s; [reflexivity|].
  pose proof (Hnone module_name base_offset offsets s (or_introl eq_refl)) as H.
  destruct (resolve_pointer pm module_name base_offset offsets s) as [r s1] eqn:E.
  cbn [fst] in H. subst r.
  rewrite (collect_skips_unresolved pm _ _ _ _ _ _ _ E).
  apply IH. intros m b o s' Hin. apply Hnone. right. exact Hin.
Qed.

Lemma show_no_consensus_shows_no_value (env : Env) :
  emits (show env NoConsensus) (only not_a_value).
Proof.
  cbn [show]. apply emits_bind; [apply emits_print; reflexivity|].
  intros _. apply emits_wait. reflexivity.
Qed.


(** C8 as stated fails: the only chain resolves, to 0x3008, so one address
    resolved in the cycle; the read of its value raises, and the cycle
    ends with no consensus. *)
Lemma no_consensus_with_a_resolved_address_counterexample :
  fst (resolve_pointer (Image.handle Fixture.unreadable_target)
                       "Core" 0x10 [0x4; 0x8] s0) = Return (Some 0x3008) /\
  fst (aggregate (Image.handle Fixture.unreadable_target) [Fixture.to_3008] s0)
    = Return NoConsensus.
Proof.
  split; reflexivity.
Qed.

(** ** Two runs over the same memory *)

Section SameResult.

Lemma same_result_ret {A} (a : A) : same_result (ret a) (ret a).
Proof. intros s1 s2. reflexivity. Qed.

Lemma same_result_raise {A} (e : exn) : same_result (@raise A e) (raise e).
Proof. intros s1 s2. reflexivity. Qed.

Lemma same_result_lift {A} (o : outcome A) : same_result (lift o) (lift o).
Proof. intros s1 s2. reflexivity. Qed.

Lemma same_result_ask {A} (oracle1 oracle2 : nat -> outcome A) :
  (forall t1 t2, oracle1 t1 = oracle2 t2) -> same_result (ask oracle1) (ask oracle2).
Proof. intros H s1 s2. apply H. Qed.

Lemma same_result_bind {A B} (m1 m2 : M A) (f1 f2 : A -> M B) :
  same_result m1 m2 -> (forall a, same_result (f1 a) (f2 a)) ->
  same_result (bind m1 f1) (bind m2 f2).
Proof.
  intros Hm Hf s1 s2. unfold bind. specialize (Hm s1 s2).
  destruct (m1 s1) as [[a1|e1] s1'], (m2 s2) as [[a2|e2] s2'];
    cbn [fst] in Hm; try discriminate Hm.
  - injection Hm as <-. apply Hf.
  - injection Hm as <-. reflexivity.
Qed.

Lemma same_result_try_except {A} (b1 b2 : M A) (h1 h2 : exn -> M A) :
  same_result b1 b2 -> (forall e, same_result (h1 e) (h2 e)) ->
  same_result (try_except b1 h1) (try_except b2 h2).
Proof.
  intros Hm Hf s1 s2. unfold try_except. specialize (Hm s1 s2).
  destruct (b1 s1) as [[a1|e1] s1'], (b2 s2) as [[a2|e2] s2'];
    cbn [fst] in Hm; try discriminate Hm.
  - exact Hm.
  - injection Hm as <-. apply Hf.
Qed.

Variables pm1 pm2 : Pymem.
Hypothesis unchanged : same_image pm1 pm2.

Lemma same_result_pm_read (address length : Z) :
  same_result (pm_read pm1 address length) (pm_read pm2 address length).
Proof.
  apply same_result_ask. intros t1 t2. apply (proj2 unchanged).
Qed.

Lemma same_result_follow (offs : list Z) :
  forall addr, same_result (follow pm1 offs addr) (follow pm2 offs addr).
Proof.
  induction offs as [|off rest IH]; intros addr; cbn [follow].
  - apply same_result_ret.
  - apply same_result_bind; [apply same_result_pm_read|]. intros bs. apply IH.
Qed.

Lemma same_result_resolve_pointer module_name base_offset offsets :
  same_result (resolve_pointer pm1 module_name base_offset offsets)
              (resolve_pointer pm2 module_name base_offset offsets).
Proof.
  unfold resolve_pointer.
  apply same_result_try_except; [|intros e; apply same_result_ret].
  apply same_result_bind.
  { apply same_result_ask. intros t1 t2. apply (proj1 unchanged). }
  intros mod_. apply same_result_bind.
  { destruct mod_; [apply same_result_ret|apply same_result_raise]. }
  intros b. apply same_result_bind; [apply same_result_pm_read|].
  intros bs. apply same_result_bind; [apply same_result_follow|].
  intros a. apply same_result_ret.
Qed.

Lemma same_result_read_value (addr : Z) :
  same_result (read_value pm1 addr) (read_value pm2 addr).
Proof.
  unfold read_value. apply same_result_bind; [apply same_result_pm_read|].
  intros raw. apply same_result_lift.
Qed.

Lemma same_result_collect_one (entry : chain) (results : list (Z * Z)) :
  same_result (collect_one pm1 entry results) (collect_one pm2 entry results).
Proof.
  destruct entry as [[module_name base_offset] offsets]. unfold collect_one.
  apply same_result_bind; [apply same_result_resolve_pointer|].
  intros [a|]; [|apply same_result_ret].
  destruct (a =? 0); [apply same_result_ret|].
  apply same_result_try_except; [|intros e; apply same_result_ret].
  apply same_result_bind; [apply same_result_read_value|].
  intros v. apply same_result_ret.
Qed.

Lemma same_result_collect (entries : list chain) :
  forall results,
    same_result (collect pm1 entries results) (collect pm2 entries results).
Proof.
  induction entries as [|entry rest IH]; intros results; cbn [collect].
  - apply same_result_ret.
  - apply same_result_bind; [apply same_result_collect_one|]. intros r. apply IH.
Qed.

Lemma same_result_aggregate (entries : list chain) :
  same_result (aggregate pm1 entries) (aggregate pm2 entries).
Proof.
  unfold aggregate. apply same_result_bind; [apply same_result_collect|].
  intros [|r rest]; [apply same_result_ret|].
  apply same_result_bind; [apply same_result_lift|]. intros [best_addr count].
  apply same_result_bind.
  - apply same_result_try_except; [|intros e; apply same_result_ret].
    apply same_result_bind; [apply same_result_read_value|].
    intros v. apply same_result_ret.
  - intros [v|]; apply same_result_ret.
Qed.

End SameResult.

(** C9.  Over an unchanged memory image (the handles of the two runs
    answer the same, whenever they are asked) and the same definitions,
    two cycles end the same way, from whatever states they start, and so
    do two cycles run one after the other: the same winning address,
    value, count of hits and total, or the same failure. *)
Theorem aggregate_twice_on_unchanged_memory
    (pm1 pm2 : Pymem) (entries : list chain) (s : St) :
  same_image pm1 pm2 ->
  (forall s1 s2, fst (aggregate pm1 entries s1) = fst (aggregate pm2 entries s2)) /\
  fst (aggregate pm2 entries (snd (aggregate pm1 entries s)))
  = fst (aggregate pm1 entries s).
Proof.
  intros H. split.
  - apply same_result_aggregate, H.
  - symmetry. apply same_result_aggregate, H.
Qed.

Lemma aggregate_twice_on_unchanged_memory_witness :
  (forall s1 s2,
      fst (aggregate (Image.handle Fixture.two_targets)
                     [Fixture.to_3008; Fixture.to_4000; Fixture.to_3008] s1)
      = fst (aggregate (Image.handle Fixture.two_targets)
                       [Fixture.to_3008; Fixture.to_4000; Fixture.to_3008] s2)) /\
  fst (aggregate (Image.handle Fixture.two_targets)
                 [Fixture.to_3008; Fixture.to_4000; Fixture.to_3008]
                 (snd (aggregate (Image.handle Fixture.two_targets)
                                 [Fixture.to_3008; Fixture.to_4000; Fixture.to_3008]
                                 s0)))
  = fst (aggregate (Image.handle Fixture.two_targets)
                   [Fixture.to_3008; Fixture.to_4000; Fixture.to_3008] s0).
Proof.
  apply (aggregate_twice_on_unchanged_memory
           (Image.handle Fixture.two_targets) (Image.handle Fixture.two_targets)
           [Fixture.to_3008; Fixture.to_4000; Fixture.to_3008] s0).
  split; intros; reflexivity.
Defined.

(** ** The handle within an iteration of the loop *)

Section HandleScope.

Lemma only_weaken (c d : event -> bool) (evs : list event) :
  (forall e, c e = true -> d e = true) -> only c evs -> only d evs.
Proof.
  unfold only. intros H. rewrite !forallb_forall. intros Hc e He.
  apply H, Hc, He.
Qed.

Lemma quiet_not_handle (evs : list event) : only quiet evs -> only not_handle evs.
Proof.
  apply only_weaken. unfold quiet. intros e H.
  apply andb_true_iff in H. apply H.
Qed.

Lemma quiet_not_sleep (evs : list event) : only quiet evs -> only not_sleep evs.
Proof.
  apply only_weaken. unfold quiet. intros e H.
  apply andb_true_iff in H. apply H.
Qed.

Lemma held_after_app (held : bool) (e1 e2 : list event) :
  held_after held (e1 ++ e2) = held_after (held_after held e1) e2.
Proof.
  revert held. induction e1 as [|e e1 IH]; intros held; [reflexivity|].
  destruct e; cbn [app held_after]; apply IH.
Qed.

Lemma held_after_untouched (held : bool) (evs : list event) :
  only not_handle evs -> held_after held evs = held.
Proof.
  unfold only. induction evs as [|e evs IH]; intros H; [reflexivity|].
  cbn [forallb] in H. apply andb_true_iff in H. destruct H as [He H].
  destruct e; cbn [held_after]; try discriminate He; apply IH, H.
Qed.

(** After a scoped iteration the handle is not held. *)
Lemma scoped_released (evs : list event) :
  scoped evs -> held_after false evs = false.
Proof.
  intros [H|(before & inside & ok & -> & _ & _ & _)].
  - apply held_after_untouched, H.
  - rewrite held_after_app. cbn [held_after].
    rewrite held_after_app. reflexivity.
Qed.

Lemma emits_weaken {A} (m : M A) (P Q : list event -> Prop) :
  (forall evs, P evs -> Q evs) -> emits m P -> emits m Q.
Proof.
  intros H Hm s. destruct (Hm s) as (evs & E & HP).
  exists evs. split; [exact E|apply H, HP].
Qed.

(** Quiet events first, then a scoped rest: the whole is scoped. *)
Lemma scoped_after_quiet (e1 e2 : list event) :
  only quiet e1 -> scoped e2 -> scoped (e1 ++ e2).
Proof.
  intros H1 [H2|(before & inside & ok & -> & Hb & Hs & Hi)].
  - left. apply only_app; [apply quiet_not_handle, H1|exact H2].
  - right. exists (e1 ++ before), inside, ok. rewrite <- app_assoc.
    split; [reflexivity|].
    split; [apply only_app; [apply quiet_not_handle, H1|exact Hb]|].
    split; [apply only_app; [apply quiet_not_sleep, H1|exact Hs]|exact Hi].
Qed.

Lemma emits_scoped_bind {A B} (m : M A) (f : A -> M B) :
  emits m (only quiet) -> (forall a, emits (f a) scoped) -> emits (bind m f) scoped.
Proof.
  intros Hm Hf s. unfold bind. destruct (Hm s) as (e1 & E1 & P1).
  destruct (m s) as [[a|e] s1]; cbn [snd] in E1.
  - destruct (Hf a s1) as (e2 & E2 & P2). exists (e1 ++ e2).
    rewrite E2, E1, app_assoc. split; [reflexivity|].
    apply scoped_after_quiet; assumption.
  - exists e1. split; [exact E1|]. left. apply quiet_not_handle, P1.
Qed.

Variable env : Env.

Lemma emits_show (r : cycle_result) : emits (show env r) (only not_handle).
Proof.
  destruct r as [| |r]; cbn [show];
    repeat (apply emits_bind; [apply emits_print; reflexivity|intros _]);
    apply emits_wait; reflexivity.
Qed.

Lemma emits_cycle_body (pm : Pymem) (entries : list chain) :
  emits (cycle_body env pm entries) (only not_handle).
Proof.
  unfold cycle_body. apply emits_bind; [apply emits_aggregate|].
  intros r. apply emits_show.
Qed.

(** The final block returns, after one release event. *)
Lemma release_once (pm : Pymem) (s : St) :
  exists ok,
    release pm s = (Return tt, mkSt (S (clock s)) (trace s ++ [EvRelease ok])).
Proof.
  unfold release, try_except, bind, ask, emit.
  destruct (close_process pm (clock s)) as [[]|e].
  - exists true. reflexivity.
  - exists false. reflexivity.
Qed.

(** The scope of lines 279-333, entered with the handle just acquired. *)
Lemma emits_try_finally_release (pm : Pymem) (entries : list chain) :
  emits (try_finally (cycle_body env pm entries) (release pm))
        (fun evs => exists inside ok,
             evs = inside ++ [EvRelease ok] /\ only not_handle inside).
Proof.
  intros s. unfold try_finally.
  destruct (emits_cycle_body pm entries s) as (inside & E & P).
  destruct (cycle_body env pm entries s) as [r s1]. cbn [snd] in E.
  destruct (release_once pm s1) as [ok ->]. cbn [snd trace].
  exists (inside ++ [EvRelease ok]). rewrite E, app_assoc.
  split; [reflexivity|]. exists inside, ok. split; [reflexivity|exact P].
Qed.

(** The handler of a failed attachment: it shows the failure and waits. *)
Lemma emits_attach_failed (e : exn) :
  emits (bind (print env (MsgAttachFailed e))
              (fun _ => bind (wait env) (fun _ => ret (@None Pymem))))
        (only not_handle).
Proof.
  apply emits_bind; [apply emits_print; reflexivity|]. intros _.
  apply emits_bind; [apply emits_wait; reflexivity|]. intros _. apply emits_ret.
Qed.

Lemma attach_failed_gives_no_handle (e : exn) (s : St) :
  forall pm s',
    bind (print env (MsgAttachFailed e))
         (fun _ => bind (wait env) (fun _ => ret (@None Pymem))) s
    <> (Return (Some pm), s').
Proof.
  intros pm s'. unfold bind, ret.
  destruct (print env (MsgAttachFailed e) s) as [[[]|e1] s1]; [|discriminate].
  destruct (wait env s1) as [[[]|e2] s2]; discriminate.
Qed.

Lemma attach_cases (s : St) :
  attach env s
  = match Pymem_open env (clock s) with
    | Return pm =>
        (Return (Some pm), mkSt (S (clock s)) (trace s ++ [EvAcquire]))
    | Raise e =>
        bind (print env (MsgAttachFailed e))
             (fun _ => bind (wait env) (fun _ => ret (@None Pymem)))
             (mkSt (S (clock s)) (trace s))
    end.
Proof.
  unfold attach, try_except. unfold bind at 1, ask.
  destruct (Pymem_open env (clock s)) as [pm|e]; reflexivity.
Qed.

Lemma emits_attach_then_cycle (entries : list chain) :
  emits (bind (attach env)
              (fun pm => match pm with
                         | None => ret tt
                         | Some pm => try_finally (cycle_body env pm entries) (release pm)
                         end))
        scoped.
Proof.
  intros s. unfold bind at 1. rewrite attach_cases.
  destruct (Pymem_open env (clock s)) as [pm|e].
  - destruct (emits_try_finally_release pm entries
                (mkSt (S (clock s)) (trace s ++ [EvAcquire])))
      as (evs & E & inside & ok & -> & P).
    cbn [trace clock] in E.
    exists (EvAcquire :: inside ++ [EvRelease ok]).
    split; [rewrite E, <- app_assoc; reflexivity|].
    right. exists [], inside, ok.
    split; [reflexivity|]. split; [reflexivity|]. split; [reflexivity|exact P].
  - destruct (emits_attach_failed e (mkSt (S (clock s)) (trace s)))
      as (evs & E & P).
    pose proof (attach_failed_gives_no_handle e (mkSt (S (clock s)) (trace s)))
      as Hno.
    destruct (bind (print env (MsgAttachFailed e))
                   (fun _ => bind (wait env) (fun _ => ret None))
                   (mkSt (S (clock s)) (trace s))) as [[[pm|]|e'] s1].
    + exfalso. apply (Hno pm s1). reflexivity.
    + exists evs. split; [exact E|left; exact P].
    + exists evs. split; [exact E|left; exact P].
Qed.

Lemma emits_iteration (entries : list chain) : emits (iteration env entries) scoped.
Proof.
  unfold iteration.
  apply emits_scoped_bind; [apply emits_emit; reflexivity|]. intros _.
  apply emits_scoped_bind; [apply emits_print; reflexivity|]. intros _.
  apply emits_scoped_bind.
  { unfold find_pid_by_name. apply emits_bind; [apply emits_ask|].
    intros ?. apply emits_ret. }
  intros pid. destruct (no_pid pid).
  - apply emits_weaken with (P := only not_handle); [intros evs H; left; exact H|].
    apply emits_bind; [apply emits_print; reflexivity|]. intros _.
    apply emits_wait. reflexivity.
  - apply emits_attach_then_cycle.
Qed.

(** At the end of the loop, however it ends, the handle is not held. *)
Lemma poll_loop_released (entries : list chain) (fuel : nat) :
  emits (poll_loop env entries fuel) (fun evs => held_after false evs = false).
Proof.
  induction fuel as [|k IH]; cbn [poll_loop]; intros s.
  - exists []. rewrite app_nil_r. split; reflexivity.
  - unfold bind at 1, ask.
    destruct (RUNNING env (clock s)).
    + unfold bind.
      destruct (emits_iteration entries (mkSt (S (clock s)) (trace s)))
        as (e1 & E1 & P1).
      destruct (iteration env entries (mkSt (S (clock s)) (trace s)))
        as [[[]|e] s1]; cbn [snd trace] in E1.
      * destruct (IH s1) as (e2 & E2 & P2). exists (e1 ++ e2).
        rewrite E2, E1, app_assoc. split; [reflexivity|].
        rewrite held_after_app, (scoped_released _ P1). exact P2.
      * exists e1. split; [exact E1|apply scoped_released, P1].
    + exists []. cbn [snd trace]. rewrite app_nil_r. split; reflexivity.
Qed.

End HandleScope.

(** C2, as the code has it.  In every iteration of the poll loop the
    handle is either not touched or acquired once, before any wait tick of
    that iteration, and released by the last event of the iteration (the
    refresh wait of the cycle comes before the release, so the handle is
    held during it); this holds however the cycle body ends, also when it
    raises partway through, and a failure of the release is swallowed.  So
    the handle is not held when the loop tests its flag again, nor when
    the loop ends, however it ends. *)
Theorem handle_is_released_at_the_end_of_each_iteration :
  (forall env entries s,
      exists evs,
        trace (snd (iteration env entries s)) = trace s ++ evs /\
        scoped evs /\
        held_after false evs = false) /\
  (forall env entries fuel s,
      exists evs,
        trace (snd (poll_loop env entries fuel s)) = trace s ++ evs /\
        held_after false evs = false) /\
  iteration (Fixture.env_of (Image.handle Fixture.two_targets) 1000
                            (fun t => (t =? 9)%nat))
            [Fixture.to_3008] s0
  = (Raise OSError,
     mkSt 11 [EvClear; EvPrint MsgHeader; EvAcquire;
              EvPrint (MsgValue 7 0x3008 1 1); EvRelease true]) /\
  iteration (Fixture.env_of (Fixture.handle_close_fails Fixture.two_targets) 12
                            (fun _ => false))
            [Fixture.to_3008] s0
  = (Return tt,
     mkSt 14 [EvClear; EvPrint MsgHeader; EvAcquire;
              EvPrint (MsgValue 7 0x3008 1 1);
              EvPrint (MsgGhostChart "Revenant");
              EvPrint (MsgEvidenceChart "Revenant");
              EvPrint MsgRefreshing; EvRelease false]).
Proof.
  split; [|split; [|split; reflexivity]].
  - intros env entries s.
    destruct (emits_iteration env entries s) as (evs & E & P).
    exists evs. split; [exact E|]. split; [exact P|apply scoped_released, P].
  - intros env entries fuel s. apply poll_loop_released.
Qed.

(** C2 as stated fails: in a cycle that succeeds, the thirty ticks of the
    refresh wait come between the acquisition and the release, so the
    handle is held across the wait. *)
Lemma handle_is_held_during_the_refresh_wait_counterexample :
  iteration (Fixture.env_of (Image.handle Fixture.two_targets) 1000 (fun _ => false))
            [Fixture.to_3008] s0
  = (Return tt,
     mkSt 43 ([EvClear; EvPrint MsgHeader; EvAcquire;
               EvPrint (MsgValue 7 0x3008 1 1);
               EvPrint (MsgGhostChart "Revenant");
               EvPrint (MsgEvidenceChart "Revenant");
               EvPrint MsgRefreshing]
              ++ repeat EvSleep 30 ++ [EvRelease true])) /\
  sleeps_while_held false
    (trace (snd (iteration (Fixture.env_of (Image.handle Fixture.two_targets) 1000
                                           (fun _ => false))
                           [Fixture.to_3008] s0))) = true.
Proof.
  split; vm_compute; reflexivity.
Qed.

(** * Further properties of the loader *)

Section OffsetNodes.

Lemma parse_offsets_from_app (a b : list (option string)) :
  forall offs,
    parse_offsets_from (a ++ b) offs
    = obind (parse_offsets_from a offs) (parse_offsets_from b).
Proof.
  induction a as [|n a IH]; intros offs; [reflexivity|].
  cbn [app parse_offsets_from].
  destruct (PyStr.replace "0x" EmptyString
              (PyStr.lower (PyStr.strip (text_or_empty n)))) as [|c r];
    [apply IH|].
  destruct (PyStr.int16 (String c r)) as [v|e]; [apply IH|reflexivity].
Qed.

Lemma parse_offsets_from_acc (nodes : list (option string)) :
  forall offs,
    parse_offsets_from nodes offs
    = obind (parse_offsets nodes) (fun l => Return (offs ++ l)).
Proof.
  unfold parse_offsets. induction nodes as [|n nodes IH]; intros offs.
  - cbn. rewrite app_nil_r. reflexivity.
  - cbn [parse_offsets_from].
    destruct (PyStr.replace "0x" EmptyString
                (PyStr.lower (PyStr.strip (text_or_empty n)))) as [|c r];
      [apply IH|].
    destruct (PyStr.int16 (String c r)) as [v|e]; [|reflexivity].
    cbn [obind app]. rewrite (IH (offs ++ [v])), (IH [v]).
    destruct (parse_offsets_from nodes []) as [l|e]; [|reflexivity].
    cbn [obind]. rewrite <- app_assoc. reflexivity.
Qed.

Lemma int16_raises_ValueError (s : string) (e : exn) :
  PyStr.int16 s = Raise e -> e = ValueError.
Proof.
  unfold PyStr.int16.
  destruct (match PyStr.skip_spaces (PyStr.spaces_to_ascii s) with
            | String "+" r => (false, r)
            | String "-" r => (true, r)
            | _ => (false, PyStr.skip_spaces (PyStr.spaces_to_ascii s))
            end) as [negative s1].
  match goal with
  | |- match ?s2 with _ => _ end = _ -> _ => destruct s2 as [|c2 r2]
  end.
  - cbn. intros H. injection H as <-. reflexivity.
  - match goal with
    | |- (if ?b then _ else _) = _ -> _ => destruct b
    | |- match ?x with _ => _ end = _ -> _ => idtac
    end.
    all: repeat match goal with
         | |- Raise _ = Raise _ -> _ => intros H; injection H as <-; reflexivity
         | |- Return _ = Raise _ -> _ => intros H; discriminate H
         | |- match ?x with _ => _ end = _ -> _ => destruct x
         | |- (if ?b then _ else _) = _ -> _ => destruct b
         | |- (let (_, _) := ?x in _) = _ -> _ => destruct x
         end.
Qed.

End OffsetNodes.

Lemma parse_offsets_concat (a b : list (option string)) :
  parse_offsets (a ++ b)
  = obind (parse_offsets a) (fun x =>
    obind (parse_offsets b) (fun y => Return (x ++ y))).
Proof.
  unfold parse_offsets at 1. rewrite parse_offsets_from_app.
  fold (parse_offsets a). destruct (parse_offsets a) as [x|e]; [|reflexivity].
  cbn [obind]. apply parse_offsets_from_acc.
Qed.

(** X1.  Parsing the offset texts goes node by node, in order: the offsets
    of two lists of nodes put end to end are the offsets of the first
    followed by those of the second, and the parse fails when the parse of
    either fails. *)
Theorem parse_offsets_app (a b : list (option string)) :
  parse_offsets (a ++ b)
  = obind (parse_offsets a) (fun x =>
    obind (parse_offsets b) (fun y => Return (x ++ y))).
Proof.
  exact (parse_offsets_concat a b).
Qed.

Lemma parse_offsets_one (n : option string) :
  parse_offsets [n]
  = match offset_text n with
    | EmptyString => Return []
    | String _ _ => obind (PyStr.int16 (offset_text n)) (fun v => Return [v])
    end.
Proof.
  unfold parse_offsets, offset_text. cbn [parse_offsets_from].
  destruct (PyStr.replace "0x" EmptyString
              (PyStr.lower (PyStr.strip (text_or_empty n)))) as [|c r];
    [reflexivity|].
  destruct (PyStr.int16 (String c r)); reflexivity.
Qed.

(** X2.  An [Offset] element whose text is blank once it is trimmed,
    lowered and rid of ["0x"] (no text, white space only, or a bare
    ["0x"]) is passed over: the list parses as if the element were not
    there. *)
Theorem parse_offsets_skips_blank (a b : list (option string)) (n : option string) :
  offset_text n = EmptyString ->
  parse_offsets (a ++ n :: b) = parse_offsets (a ++ b).
Proof.
  intros H. rewrite !parse_offsets_concat.
  destruct (parse_offsets a) as [x|e]; [|reflexivity]. cbn [obind].
  change (n :: b) with ([n] ++ b). rewrite parse_offsets_concat, parse_offsets_one, H.
  cbn [obind]. destruct (parse_offsets b); reflexivity.
Qed.

Lemma parse_offsets_skips_blank_witness :
  parse_offsets ([Some "0x8"] ++ Some " 0x " :: [Some "4"; None])
  = parse_offsets ([Some "0x8"] ++ [Some "4"; None]).
Proof.
  apply (parse_offsets_skips_blank [Some "0x8"] [Some "4"; None] (Some " 0x ")).
  reflexivity.
Defined.

(** X3.  One [Offset] element whose text is neither blank nor a
    hexadecimal number makes the parse of the whole list fail, with
    [ValueError], wherever the element stands: no offset list is returned
    without it. *)
Theorem parse_offsets_rejects_bad_text
    (a b : list (option string)) (n : option string) (e : exn) :
  offset_text n <> EmptyString ->
  PyStr.int16 (offset_text n) = Raise e ->
  parse_offsets (a ++ n :: b) = Raise ValueError.
Proof.
  intros Hne Hbad. rewrite parse_offsets_concat.
  destruct (parse_offsets a) as [x|e'] eqn:Ea.
  - cbn [obind]. change (n :: b) with ([n] ++ b).
    rewrite parse_offsets_concat, parse_offsets_one.
    destruct (offset_text n) as [|c r]; [contradiction|].
    rewrite Hbad. apply int16_raises_ValueError in Hbad. subst e. reflexivity.
  - cbn [obind]. f_equal. unfold parse_offsets in Ea. clear -Ea.
    revert Ea. generalize (@nil Z).
    induction a as [|m a IH]; intros offs H; [discriminate H|].
    cbn [parse_offsets_from] in H.
    destruct (PyStr.replace "0x" EmptyString
                (PyStr.lower (PyStr.strip (text_or_empty m)))) as [|c r];
      [apply (IH _ H)|].
    destruct (PyStr.int16 (String c r)) as [v|e0] eqn:Ei.
    + apply (IH _ H).
    + cbn [obind] in H. injection H as <-.
      apply (int16_raises_ValueError _ _ Ei).
Qed.

Lemma parse_offsets_rejects_bad_text_witness :
  parse_offsets ([Some "0x8"] ++ Some "0x4g" :: [Some "4"]) = Raise ValueError.
Proof.
  apply (parse_offsets_rejects_bad_text [Some "0x8"] [Some "4"] (Some "0x4g") ValueError).
  - discriminate.
  - reflexivity.
Defined.

Section LoadEntries.

Lemma load_entries_from_app (a b : list CheatEntry) :
  forall parsed,
    load_entries_from (a ++ b) parsed
    = obind (load_entries_from a parsed) (load_entries_from b).
Proof.
  induction a as [|entry a IH]; intros parsed; [reflexivity|].
  cbn [app load_entries_from].
  destruct (entry_offsets entry) as [offsets|e]; [|reflexivity]. cbn [obind].
  destruct (no_address (Address entry)); [apply IH|].
  destruct (parse_address_spec (text_or_empty (Address entry))) as [[m b0]|e];
    [apply IH|reflexivity].
Qed.

Lemma parse_address_spec_raises_ValueError (spec : string) (e : exn) :
  parse_address_spec spec = Raise e -> e = ValueError.
Proof.
  unfold parse_address_spec.
  destruct (unpack2 _) as [[module off]|e0] eqn:Eu; cbn [obind].
  - destruct (PyStr.int16 _) as [n|e1] eqn:Ei; cbn [obind]; intros H.
    + discriminate H.
    + injection H as <-. apply (int16_raises_ValueError _ _ Ei).
  - intros H. injection H as <-. unfold unpack2 in Eu.
    repeat match type of Eu with
           | match ?l with _ => _ end = _ => destruct l
           end; try discriminate Eu; injection Eu as <-; reflexivity.
Qed.

Lemma parse_offsets_raises_ValueError (nodes : list (option string)) (e : exn) :
  parse_offsets nodes = Raise e -> e = ValueError.
Proof.
  unfold parse_offsets. generalize (@nil Z).
  induction nodes as [|n nodes IH]; intros offs H; [discriminate H|].
  cbn [parse_offsets_from] in H.
  destruct (PyStr.replace "0x" EmptyString
              (PyStr.lower (PyStr.strip (text_or_empty n)))) as [|c r];
    [apply (IH _ H)|].
  destruct (PyStr.int16 (String c r)) as [v|e0] eqn:Ei.
  - apply (IH _ H).
  - cbn [obind] in H. injection H as <-. apply (int16_raises_ValueError _ _ Ei).
Qed.

Lemma entry_offsets_raises_ValueError (entry : CheatEntry) (e : exn) :
  entry_offsets entry = Raise e -> e = ValueError.
Proof.
  unfold entry_offsets. destruct (Offsets entry) as [nodes|]; [|discriminate].
  destruct (parse_offsets nodes) as [offs|e0] eqn:E; cbn [obind]; intros H.
  - discriminate H.
  - injection H as <-. apply (parse_offsets_raises_ValueError _ _ E).
Qed.

Lemma load_entries_from_raises_ValueError (entries : list CheatEntry) :
  forall parsed e, load_entries_from entries parsed = Raise e -> e = ValueError.
Proof.
  induction entries as [|entry rest IH]; intros parsed e H; [discriminate H|].
  cbn [load_entries_from] in H.
  destruct (entry_offsets entry) as [offsets|e0] eqn:Eo; cbn [obind] in H.
  - destruct (no_address (Address entry)); [apply (IH _ _ H)|].
    destruct (parse_address_spec (text_or_empty (Address entry)))
      as [[m b]|e1] eqn:Ea; cbn [obind] in H.
    + apply (IH _ _ H).
    + injection H as <-. apply (parse_address_spec_raises_ValueError _ _ Ea).
  - injection H as <-. apply (entry_offsets_raises_ValueError _ _ Eo).
Qed.

Lemma load_entries_from_sound (entries : list CheatEntry) :
  forall parsed defs,
    load_entries_from entries parsed = Return defs ->
    exists added,
      defs = parsed ++ added /\
      Forall (fun entry => exists offsets, entry_offsets entry = Return offsets)
             entries /\
      Forall2 loads_as (filter kept entries) added.
Proof.
  induction entries as [|entry rest IH]; intros parsed defs H.
  - injection H as <-. exists []. rewrite app_nil_r.
    split; [reflexivity|]. split; constructor.
  - cbn [load_entries_from] in H.
    destruct (entry_offsets entry) as [offsets|e] eqn:Eo; [|discriminate H].
    cbn [obind] in H. cbn [filter]. unfold kept at 1.
    destruct (no_address (Address entry)); cbn [negb].
    + destruct (IH _ _ H) as (added & -> & Hall & HF).
      exists added. split; [reflexivity|]. split; [|exact HF].
      constructor; [exists offsets; exact Eo|exact Hall].
    + destruct (parse_address_spec (text_or_empty (Address entry)))
        as [[module_name base_offset]|e] eqn:Ea; [|discriminate H].
      cbn [obind] in H. destruct (IH _ _ H) as (added & -> & Hall & HF).
      exists ((module_name, base_offset, offsets) :: added).
      split; [rewrite <- app_assoc; reflexivity|].
      split; [constructor; [exists offsets; exact Eo|exact Hall]|].
      constructor; [|exact HF]. split; [exact Ea|exact Eo].
Qed.

Lemma load_entries_from_complete (entries : list CheatEntry) :
  forall parsed added,
    Forall (fun entry => exists offsets, entry_offsets entry = Return offsets)
           entries ->
    Forall2 loads_as (filter kept entries) added ->
    load_entries_from entries parsed = Return (parsed ++ added).
Proof.
  induction entries as [|entry rest IH]; intros parsed added Hall HF.
  - inversion HF; subst. rewrite app_nil_r. reflexivity.
  - inversion Hall as [|? ? [offsets Eo] Hall']; subst.
    cbn [load_entries_from]. rewrite Eo. cbn [obind].
    cbn [filter] in HF. unfold kept at 1 in HF.
    destruct (no_address (Address entry)); cbn [negb] in HF.
    + apply IH; assumption.
    + inversion HF as [|? d ? added' [Ha Ho] HF']; subst.
      rewrite Ha. destruct d as [[module_name base_offset] offsets'].
      cbn [fst snd obind] in *. rewrite Eo in Ho. injection Ho as <-.
      rewrite (IH _ added' Hall' HF'), <- app_assoc. reflexivity.
Qed.

End LoadEntries.

(** X4.  The load succeeds exactly when the offsets of every entry parse
    (those of the entries without an address too) and the address of
    every entry that has one parses; the definitions are then those of
    the entries with an address, in file order, each with the module and
    base offset of its address and its offsets reversed. *)
Theorem load_entries_succeeds_iff (entries : list CheatEntry) (defs : list chain) :
  load_entries entries = Return defs
  <-> Forall (fun entry => exists offsets, entry_offsets entry = Return offsets)
             entries /\
      Forall2 loads_as (filter kept entries) defs.
Proof.
  unfold load_entries. split.
  - intros H. destruct (load_entries_from_sound _ _ _ H) as (added & -> & Hall & HF).
    split; [exact Hall|exact HF].
  - intros [Hall HF]. apply (load_entries_from_complete entries [] defs Hall HF).
Qed.

(** X5.  An entry with no address specification (no [Address] child, or
    an empty one) whose offsets parse is passed over: the file loads as if
    the entry were not there. *)
Theorem load_entries_skips_entry_without_address
    (before after : list CheatEntry) (entry : CheatEntry) (offsets : list Z) :
  no_address (Address entry) = true ->
  entry_offsets entry = Return offsets ->
  load_entries (before ++ entry :: after) = load_entries (before ++ after).
Proof.
  intros Hno Ho. unfold load_entries. rewrite !load_entries_from_app.
  destruct (load_entries_from before []) as [parsed|e]; [|reflexivity].
  cbn [obind load_entries_from]. rewrite Ho, Hno. reflexivity.
Qed.

Lemma load_entries_skips_entry_without_address_witness :
  load_entries ([{| Address := Some "Core+0x10"; Offsets := None |}]
                ++ {| Address := Some EmptyString; Offsets := Some [Some "0x8"] |}
                :: [{| Address := Some "Core+0x20"; Offsets := None |}])
  = load_entries ([{| Address := Some "Core+0x10"; Offsets := None |}]
                  ++ [{| Address := Some "Core+0x20"; Offsets := None |}]).
Proof.
  apply (load_entries_skips_entry_without_address
           [{| Address := Some "Core+0x10"; Offsets := None |}]
           [{| Address := Some "Core+0x20"; Offsets := None |}]
           {| Address := Some EmptyString; Offsets := Some [Some "0x8"] |} [0x8]);
    reflexivity.
Defined.

(** X6.  The offsets of an entry are parsed before its address is looked
    at: an entry whose offsets do not parse makes the whole load fail,
    with [ValueError], even when the entry has no address and would have
    been passed over, and wherever it stands in the file. *)
Theorem load_entries_fails_on_bad_offsets
    (before after : list CheatEntry) (entry : CheatEntry) (e : exn) :
  entry_offsets entry = Raise e ->
  load_entries (before ++ entry :: after) = Raise ValueError.
Proof.
  intros Ho. unfold load_entries. rewrite load_entries_from_app.
  destruct (load_entries_from before []) as [parsed|e'] eqn:Eb.
  - cbn [obind load_entries_from]. rewrite Ho. cbn [obind].
    rewrite (entry_offsets_raises_ValueError _ _ Ho). reflexivity.
  - cbn [obind]. rewrite (load_entries_from_raises_ValueError _ _ _ Eb). reflexivity.
Qed.

Lemma load_entries_fails_on_bad_offsets_witness :
  load_entries ([{| Address := Some "Core+0x10"; Offsets := None |}]
                ++ {| Address := None; Offsets := Some [Some "0xZZ"] |}
                :: [])
  = Raise ValueError.
Proof.
  apply (load_entries_fails_on_bad_offsets
           [{| Address := Some "Core+0x10"; Offsets := None |}] []
           {| Address := None; Offsets := Some [Some "0xZZ"] |} ValueError).
  reflexivity.
Defined.

(** * Further properties of the address specification *)

Section AddressSpec.

Lemma lstrip_head (s : string) :
  PyStr.lstrip s = EmptyString \/
  exists c r, PyStr.lstrip s = String c r /\ PyStr.isspace c = false.
Proof.
  induction s as [|c s IH]; [left; reflexivity|].
  cbn [PyStr.lstrip]. destruct (PyStr.isspace c) eqn:E; [exact IH|].
  right. exists c, s. split; [reflexivity|exact E].
Qed.

Lemma rstrip_idempotent (s : string) :
  PyStr.rstrip (PyStr.rstrip s) = PyStr.rstrip s.
Proof.
  induction s as [|c s IH]; [reflexivity|].
  cbn [PyStr.rstrip]. destruct (PyStr.rstrip s) as [|c' r'] eqn:E.
  - destruct (PyStr.isspace c) eqn:Ec; [reflexivity|].
    cbn [PyStr.rstrip]. rewrite Ec. reflexivity.
  - change (PyStr.rstrip (String c (String c' r')))
      with (match PyStr.rstrip (String c' r') with
            | EmptyString =>
                if PyStr.isspace c then EmptyString else String c EmptyString
            | r0 => String c r0
            end).
    rewrite IH. reflexivity.
Qed.

Lemma rstrip_keeps_head (c : ascii) (r : string) :
  PyStr.isspace c = false ->
  exists r', PyStr.rstrip (String c r) = String c r'.
Proof.
  intros Hc. cbn [PyStr.rstrip]. destruct (PyStr.rstrip r) as [|c' r'].
  - rewrite Hc. exists EmptyString. reflexivity.
  - exists (String c' r'). reflexivity.
Qed.

Lemma strip_idempotent (s : string) : PyStr.strip (PyStr.strip s) = PyStr.strip s.
Proof.
  unfold PyStr.strip.
  destruct (lstrip_head s) as [->|(c & r & -> & Hc)]; [reflexivity|].
  destruct (rstrip_keeps_head c r Hc) as [r' E].
  rewrite E. cbn [PyStr.lstrip]. rewrite Hc, <- E. apply rstrip_idempotent.
Qed.

(** Removing a one-character text leaves no such character. *)
Lemma replace_char_removes (q : ascii) (s : string) :
  PyStr.contains q (PyStr.replace (String q EmptyString) EmptyString s) = false.
Proof.
  unfold PyStr.replace. induction s as [|c s IH]; [reflexivity|].
  cbn [PyStr.replace_from prefix]. destruct (ascii_dec q c) as [->|Hq].
  - destruct s; exact IH.
  - cbn [PyStr.contains]. rewrite IH, orb_false_r.
    apply Ascii.eqb_neq. intros E. apply Hq. symmetry. exact E.
Qed.

(** The two parts of a split: the first has no separator, and neither has
    a character that the text did not have. *)
Lemma split1_parts (sep : ascii) (s a b : string) :
  PyStr.split1 sep s = [a; b] ->
  PyStr.contains sep a = false /\
  forall q, PyStr.contains q s = false ->
            PyStr.contains q a = false /\ PyStr.contains q b = false.
Proof.
  revert a. induction s as [|c s IH]; intros a H; [discriminate H|].
  cbn [PyStr.split1] in H. destruct (Ascii.eqb c sep) eqn:Ec.
  - injection H as <- <-. split; [reflexivity|].
    intros q Hq. apply contains_cons_false in Hq. split; [reflexivity|apply Hq].
  - destruct (PyStr.split1 sep s) as [|a' [|b' [|? ?]]]; try discriminate H.
    injection H as <- <-. destruct (IH a' eq_refl) as [Ha Hq].
    split; [cbn [PyStr.contains]; rewrite Ec; exact Ha|].
    intros q Hs. apply contains_cons_false in Hs. destruct Hs as [Hc Hs].
    destruct (Hq q Hs) as [Hqa Hqb].
    split; [cbn [PyStr.contains]; rewrite Hc; exact Hqa|exact Hqb].
Qed.

End AddressSpec.

(** X7.  The module name that [parse_address_spec] returns is clean: it
    has no double quote and no ['+'] in it, and no white space at either
    end (trimming it again changes nothing). *)
Theorem parse_address_spec_module_is_clean (spec module_name : string) (base_offset : Z) :
  parse_address_spec spec = Return (module_name, base_offset) ->
  PyStr.contains (ascii_of_N 34) module_name = false /\
  PyStr.contains "+" module_name = false /\
  PyStr.strip module_name = module_name.
Proof.
  unfold parse_address_spec.
  destruct (PyStr.split1 "+" (PyStr.replace PyStr.dquote EmptyString (PyStr.strip spec)))
    as [|a [|b [|? ?]]] eqn:Es; try discriminate.
  cbn [unpack2 obind].
  destruct (PyStr.int16 _) as [n|e]; [|discriminate].
  cbn [obind]. intros H. injection H as <- <-.
  destruct (split1_parts _ _ _ _ Es) as [Hplus Hq].
  destruct (Hq (ascii_of_N 34) (replace_char_removes _ _)) as [Hqa _].
  split; [apply contains_strip, Hqa|].
  split; [apply contains_strip, Hplus|apply strip_idempotent].
Qed.

Lemma parse_address_spec_module_is_clean_witness :
  PyStr.contains (ascii_of_N 34) "Game Assembly.dll" = false /\
  PyStr.contains "+" "Game Assembly.dll" = false /\
  PyStr.strip "Game Assembly.dll" = "Game Assembly.dll".
Proof.
  apply (parse_address_spec_module_is_clean
           (" " ++ PyStr.dquote ++ " Game Assembly.dll " ++ PyStr.dquote ++ "+0X10 ")%string
           "Game Assembly.dll" 0x10).
  reflexivity.
Defined.

(** * Further properties of the resolver *)

Section ResolverCost.
Variable pm : Pymem.

Lemma removelast_length (offs : list Z) :
  List.length (removelast offs) = Nat.pred (List.length offs).
Proof.
  induction offs as [|off [|off' rest] IH]; [reflexivity..|].
  change (removelast (off :: off' :: rest)) with (off :: removelast (off' :: rest)).
  cbn [List.length Nat.pred] in *. rewrite IH. reflexivity.
Qed.

(** The walk asks for one read per offset, and stops at the first read
    that fails. *)
Lemma follow_clock (offs : list Z) :
  forall addr s,
    (clock s <= clock (snd (follow pm offs addr s))
     <= clock s + List.length offs)%nat /\
    (forall final, fst (follow pm offs addr s) = Return final ->
                   clock (snd (follow pm offs addr s))
                   = (clock s + List.length offs)%nat).
Proof.
  induction offs as [|off rest IH]; intros addr s.
  - cbn. split; [lia|]. intros _ _. lia.
  - cbn [follow List.length]. unfold bind, pm_read, ask.
    destruct (read_bytes pm (clock s) (addr + off) 8) as [pointer|e].
    + destruct (IH (int_from_bytes_little pointer) (mkSt (S (clock s)) (trace s)))
        as [Hb He].
      cbn [clock] in Hb, He. split; [lia|].
      intros final H. rewrite (He final H). lia.
    + cbn [fst snd clock]. split; [lia|]. intros final H. discriminate H.
Qed.

End ResolverCost.


Lemma resolve_pointer_calls
    (pm : Pymem) (module_name : string) (base_offset : Z) (offsets : list Z) (s : St) :
  let run := resolve_pointer pm module_name base_offset offsets s in
  (clock s < clock (snd run)
   <= clock s + 2 + Nat.pred (List.length offsets))%nat /\
  (forall final,
      fst run = Return (Some final) ->
      clock (snd run) = (clock s + 2 + Nat.pred (List.length offsets))%nat).
Proof.
  cbv zeta. rewrite <- removelast_length.
  unfold resolve_pointer, try_except, bind, pm_read, ask, ret, raise.
  destruct (module_from_name pm (clock s) module_name) as [[b|]|e];
    cbn [fst snd clock trace];
    try (split; [lia|intros final H; discriminate H]).
  destruct (read_bytes pm (S (clock s)) (b + base_offset) 8) as [pointer|e];
    cbn [fst snd clock trace];
    try (split; [lia|intros final H; discriminate H]).
  destruct (follow_clock pm (removelast offsets) (int_from_bytes_little pointer)
                         (mkSt (S (S (clock s))) (trace s))) as [Hb He].
  destruct (follow pm (removelast offsets) (int_from_bytes_little pointer)
                   (mkSt (S (S (clock s))) (trace s))) as [[a|e] s1];
    cbn [fst snd clock] in *.
  - split; [lia|]. intros final _. rewrite (He a eq_refl). lia.
  - split; [lia|]. intros final H. discriminate H.
Qed.

(** * Further properties of the vote and of the cycle *)

Section Values.

Lemma byte_val_range (b : byte) : 0 <= byte_val b < 256.
Proof.
  unfold byte_val. pose proof (Byte.to_N_bounded b). lia.
Qed.

Lemma int_from_bytes_little_range (bs : list byte) :
  0 <= int_from_bytes_little bs < 256 ^ Z.of_nat (List.length bs).
Proof.
  induction bs as [|b bs IH]; [cbn; lia|].
  cbn [int_from_bytes_little List.length]. rewrite Nat2Z.inj_succ, Z.pow_succ_r by lia.
  pose proof (byte_val_range b). lia.
Qed.

Lemma unpack_i32_range (raw : list byte) (v : Z) :
  unpack_i32 raw = Return v -> is_int32 v.
Proof.
  unfold unpack_i32, is_int32.
  destruct raw as [|b0 [|b1 [|b2 [|b3 [|b4 rest]]]]]; try discriminate.
  pose proof (int_from_bytes_little_range [b0; b1; b2; b3]) as H.
  change (256 ^ Z.of_nat (List.length [b0; b1; b2; b3])) with 4294967296 in H.
  change (2 ^ 31) with 2147483648. change (2 ^ 32) with 4294967296.
  revert H. generalize (int_from_bytes_little [b0; b1; b2; b3]). intros u H E.
  assert (Ev : v = if u <? 2147483648 then u else u - 4294967296)
    by (injection E as <-; reflexivity).
  rewrite Ev. destruct (Z.ltb_spec u 2147483648); lia.
Qed.

Variable pm : Pymem.

Lemma read_value_range (addr : Z) (s s' : St) (v : Z) :
  read_value pm addr s = (Return v, s') -> is_int32 v.
Proof.
  unfold read_value, bind, pm_read, ask, lift.
  destruct (read_bytes pm (clock s) addr 4) as [raw|e]; [|discriminate].
  intros H. injection H as H _. apply (unpack_i32_range _ _ H).
Qed.

Lemma collect_one_was_read (entry : chain) (results : list (Z * Z)) (s : St) :
  Forall (was_read pm) results ->
  forall results' s',
    collect_one pm entry results s = (Return results', s') ->
    Forall (was_read pm) results'.
Proof.
  intros HF results' s'. destruct entry as [[module_name base_offset] offsets].
  unfold collect_one, bind.
  destruct (resolve_pointer pm module_name base_offset offsets s) as [[[a|]|e] s1];
    try (intros H; injection H as <- _; exact HF); [|discriminate].
  destruct (Z.eqb_spec a 0) as [E|E]; [intros H; injection H as <- _; exact HF|].
  unfold try_except, bind.
  destruct (read_value pm a s1) as [[v|e] s2] eqn:Er;
    intros H; injection H as <- _; [|exact HF].
  apply Forall_app. split; [exact HF|]. constructor; [|constructor].
  split; [exact E|]. exists s1, s2. exact Er.
Qed.

Lemma collect_was_read (entries : list chain) :
  forall results s results' s',
    Forall (was_read pm) results ->
    collect pm entries results s = (Return results', s') ->
    Forall (was_read pm) results'.
Proof.
  induction entries as [|entry rest IH]; intros results s results' s' HF H.
  - injection H as <- _. exact HF.
  - cbn [collect] in H. unfold bind in H.
    destruct (collect_one pm entry results s) as [[r1|e] s1] eqn:E1; [|discriminate H].
    apply (IH _ _ _ _ (collect_one_was_read _ _ _ HF _ _ E1) H).
Qed.

End Values.

Section CycleResults.
Variable pm : Pymem.

Lemma was_read_range (p : Z * Z) : was_read pm p -> is_int32 (snd p).
Proof.
  intros (_ & s & s' & H). apply (read_value_range pm _ _ _ _ H).
Qed.

Lemma collect_tally_was_read (entries : list chain) (s : St) :
  forall results s',
    collect pm entries [] s = (Return results, s') -> Forall (was_read pm) results.
Proof.
  intros results s' H. apply (collect_was_read pm entries [] s results s'); [constructor|exact H].
Qed.

(** What a stabilized result is made of. *)
Lemma aggregate_stabilized (entries : list chain) (s : St) (r : StabilizedResult) :
  fst (aggregate pm entries s) = Return (Stabilized r) ->
  exists results s1,
    collect pm entries [] s = (Return results, s1) /\
    Forall (was_read pm) results /\
    In (winning_address r) (map fst results) /\
    agreement_count r = occurrences (map fst results) (winning_address r) /\
    total_resolved r = List.length results /\
    fst (read_value pm (winning_address r) s1) = Return (value r).
Proof.
  intros H.
  destruct (aggregate_cases pm entries s) as (results & s1 & Hc & _ & _ & Hagg).
  exists results, s1. split; [exact Hc|].
  split; [apply (collect_tally_was_read _ _ _ _ Hc)|].
  destruct results as [|r0 rest]; [rewrite Hagg in H; discriminate H|].
  destruct (vote_winner r0 rest) as (w & c & Hv & Hin & Hcount & _).
  destruct Hagg as (best_addr & count & Hv' & Hagg).
  rewrite Hv in Hv'. injection Hv' as <- <-. rewrite Hagg in H.
  destruct (read_value pm w s1) as [[v|e] s2] eqn:Er; [|discriminate H].
  cbn [fst] in H. injection H as <-.
  cbn [winning_address agreement_count total_resolved value fst].
  rewrite Er. repeat split; try reflexivity; assumption.
Qed.

Lemma aggregate_returns (entries : list chain) (s : St) :
  exists r, fst (aggregate pm entries s) = Return r.
Proof.
  destruct (aggregate_cases pm entries s) as (results & s1 & _ & _ & _ & Hagg).
  destruct results as [|r0 rest].
  - rewrite Hagg. exists NoConsensus. reflexivity.
  - destruct Hagg as (best_addr & count & _ & ->).
    destruct (read_value pm best_addr s1) as [[v|e] s2]; eexists; reflexivity.
Qed.

Lemma only_nothing (evs : list event) : only (fun _ => false) evs -> evs = [].
Proof.
  destruct evs as [|e evs]; [reflexivity|]. unfold only. cbn. discriminate.
Qed.

End CycleResults.

(** X9.  Every value of the tally, and the value of a stabilized result,
    is a signed 32-bit integer. *)
Theorem cycle_values_are_int32 (pm : Pymem) (entries : list chain) (s : St) :
  (forall results,
      fst (collect pm entries [] s) = Return results ->
      Forall (fun p => is_int32 (snd p)) results) /\
  (forall r,
      fst (aggregate pm entries s) = Return (Stabilized r) -> is_int32 (value r)).
Proof.
  split.
  - intros results H.
    destruct (collect pm entries [] s) as [o s'] eqn:E. cbn [fst] in H. subst o.
    pose proof (collect_tally_was_read pm _ _ _ _ E) as HF.
    apply Forall_impl with (2 := HF). apply was_read_range.
  - intros r H.
    destruct (aggregate_stabilized pm entries s r H) as (results & s1 & _ & _ & _ & _ & _ & Hv).
    destruct (read_value pm (winning_address r) s1) as [o s2] eqn:E.
    cbn [fst] in Hv. subst o. apply (read_value_range pm _ _ _ _ E).
Qed.

(** X10.  A stabilized result is made of the tally: its winning address
    is one of the tallied addresses, so it is never 0; its count of hits
    is the number of times that address was tallied; its total is the
    size of the tally; and its value is the one read at the winning
    address after the tally, not one of the values read for the tally. *)
Theorem stabilized_result_comes_from_the_tally
    (pm : Pymem) (entries : list chain) (s : St) (r : StabilizedResult) :
  fst (aggregate pm entries s) = Return (Stabilized r) ->
  exists results,
    fst (collect pm entries [] s) = Return results /\
    In (winning_address r) (map fst results) /\
    winning_address r <> 0 /\
    agreement_count r = occurrences (map fst results) (winning_address r) /\
    total_resolved r = List.length results /\
    fst (read_value pm (winning_address r) (snd (collect pm entries [] s)))
    = Return (value r).
Proof.
  intros H.
  destruct (aggregate_stabilized pm entries s r H)
    as (results & s1 & Hc & HF & Hin & Hcount & Htotal & Hv).
  exists results. rewrite Hc. cbn [fst snd].
  split; [reflexivity|]. split; [exact Hin|]. split; [|repeat split; assumption].
  apply in_map_iff in Hin. destruct Hin as (p & <- & Hp).
  rewrite Forall_forall in HF. apply (HF p Hp).
Qed.

Lemma stabilized_result_comes_from_the_tally_witness :
  exists results,
    fst (collect (Image.handle Fixture.two_targets)
                 [Fixture.to_3008; Fixture.to_4000; Fixture.to_3008] [] s0)
    = Return results /\
    In 0x3008 (map fst results) /\
    0x3008 <> 0 /\
    2%nat = occurrences (map fst results) 0x3008 /\
    3%nat = List.length results /\
    fst (read_value (Image.handle Fixture.two_targets) 0x3008
                    (snd (collect (Image.handle Fixture.two_targets)
                                  [Fixture.to_3008; Fixture.to_4000; Fixture.to_3008]
                                  [] s0)))
    = Return 7.
Proof.
  apply (stabilized_result_comes_from_the_tally
           (Image.handle Fixture.two_targets)
           [Fixture.to_3008; Fixture.to_4000; Fixture.to_3008] s0
           {| winning_address := 0x3008; value := 7;
              agreement_count := 2; total_resolved := 3 |}).
  reflexivity.
Defined.

(** X11.  Whatever the process answers, a cycle ends in one of its three
    ways and does not raise: no failure of a module lookup or of a read
    escapes it; and it prints nothing, sleeps never and does not touch the
    handle. *)
Theorem aggregate_never_raises (pm : Pymem) (entries : list chain) (s : St) :
  (exists r, fst (aggregate pm entries s) = Return r) /\
  trace (snd (aggregate pm entries s)) = trace s.
Proof.
  split; [apply aggregate_returns|].
  destruct (emits_aggregate (fun _ => false) pm entries s) as (evs & E & P).
  rewrite E, (only_nothing _ P). apply app_nil_r.
Qed.

Lemma occurrences_two (l : list Z) (a b : Z) :
  a <> b -> (occurrences l a + occurrences l b <= List.length l)%nat.
Proof.
  intros Hab. unfold occurrences. induction l as [|x l IH]; [apply Nat.le_refl|].
  cbn [count_occ List.length].
  destruct (Z.eq_dec x a) as [Ea|Ea], (Z.eq_dec x b) as [Eb|Eb]; lia.
Qed.

(** X12.  An address that holds more than half of the tally wins the
    vote, with the number of its occurrences as count. *)
Theorem vote_majority_wins (results : list (Z * Z)) (a : Z) :
  (List.length results < 2 * occurrences (map fst results) a)%nat ->
  vote results = Return (a, occurrences (map fst results) a).
Proof.
  intros Hmaj. destruct results as [|r rest]; [cbn in Hmaj; lia|].
  destruct (vote_winner r rest) as (w & c & Hv & _ & Hcount & Hmax & _).
  rewrite Hv. destruct (Z.eq_dec w a) as [->|Hne]; [rewrite Hcount; reflexivity|].
  exfalso.
  pose proof (occurrences_two (map fst (r :: rest)) w a Hne) as H2.
  pose proof (Hmax a) as Ha. rewrite length_map in H2. lia.
Qed.

Lemma vote_majority_wins_witness :
  vote [(0x4000, 9); (0x3008, 7); (0x3008, 7)]
  = Return (0x3008, occurrences (map fst [(0x4000, 9); (0x3008, 7); (0x3008, 7)]) 0x3008).
Proof.
  apply (vote_majority_wins [(0x4000, 9); (0x3008, 7); (0x3008, 7)] 0x3008).
  vm_compute. reflexivity.
Defined.

Lemma read_value_unchanged (pm : Pymem) (p : Z * Z) :
  same_image pm pm -> was_read pm p ->
  forall s, fst (read_value pm (fst p) s) = Return (snd p).
Proof.
  intros Hsame (_ & s1 & s2 & H) s.
  rewrite (same_result_read_value pm pm Hsame (fst p) s s1), H. reflexivity.
Qed.

(** X13.  Over an unchanged memory image the read of the value at the
    winning address cannot fail, since that address was read for the
    tally: a cycle ends with no consensus or with a result, never with a
    failed read, and the value of the result is the value that was
    tallied with the winning address. *)
Theorem reread_succeeds_on_unchanged_memory
    (pm : Pymem) (entries : list chain) (s : St) :
  same_image pm pm ->
  fst (aggregate pm entries s) <> Return StabilizationReadFailed /\
  (forall r,
      fst (aggregate pm entries s) = Return (Stabilized r) ->
      exists results,
        fst (collect pm entries [] s) = Return results /\
        In (winning_address r, value r) results).
Proof.
  intros Hsame. split.
  - destruct (aggregate_cases pm entries s) as (results & s1 & Hc & _ & _ & Hagg).
    pose proof (collect_tally_was_read pm _ _ _ _ Hc) as HF.
    destruct results as [|r0 rest]; [rewrite Hagg; discriminate|].
    destruct (vote_winner r0 rest) as (w & c & Hv & Hin & _).
    destruct Hagg as (best_addr & count & Hv' & ->).
    rewrite Hv in Hv'. injection Hv' as <- <-.
    apply in_map_iff in Hin. destruct Hin as (p & <- & Hp).
    rewrite Forall_forall in HF.
    pose proof (read_value_unchanged pm p Hsame (HF p Hp) s1) as Hr.
    destruct (read_value pm (fst p) s1) as [[v|e] s2]; [discriminate|].
    discriminate Hr.
  - intros r H.
    destruct (aggregate_stabilized pm entries s r H)
      as (results & s1 & Hc & HF & Hin & _ & _ & Hv).
    exists results. rewrite Hc. split; [reflexivity|].
    apply in_map_iff in Hin. destruct Hin as (p & Ep & Hp).
    rewrite Forall_forall in HF.
    pose proof (read_value_unchanged pm p Hsame (HF p Hp) s1) as Hr.
    rewrite Ep, Hv in Hr. injection Hr as Hr.
    rewrite <- Ep, Hr, <- surjective_pairing. exact Hp.
Qed.

Lemma reread_succeeds_on_unchanged_memory_witness :
  fst (aggregate (Image.handle Fixture.two_targets)
                 [Fixture.to_3008; Fixture.to_4000] s0)
  <> Return StabilizationReadFailed /\
  (forall r,
      fst (aggregate (Image.handle Fixture.two_targets)
                     [Fixture.to_3008; Fixture.to_4000] s0)
      = Return (Stabilized r) ->
      exists results,
        fst (collect (Image.handle Fixture.two_targets)
                     [Fixture.to_3008; Fixture.to_4000] [] s0) = Return results /\
        In (winning_address r, value r) results).
Proof.
  apply (reread_succeeds_on_unchanged_memory
           (Image.handle Fixture.two_targets)
           [Fixture.to_3008; Fixture.to_4000] s0).
  split; intros; reflexivity.
Defined.

(** * Further properties of the poll loop *)

Section Wait.
Variable env : Env.

Lemma wait_ticks_spec (n : nat) :
  forall s,
    exists k,
      (k <= n)%nat /\
      wait_ticks env n s
      = (Return tt,
         mkSt (clock s + k + (if (k <? n)%nat then 1 else 0)) (trace s ++ repeat EvSleep k)) /\
      (forall i, (i < k)%nat -> RUNNING env (clock s + i) = true) /\
      ((k < n)%nat -> RUNNING env (clock s + k) = false).
Proof.
  induction n as [|n IH]; intros s.
  - exists 0%nat. cbn [wait_ticks repeat]. rewrite app_nil_r, !Nat.add_0_r.
    split; [lia|]. split; [destruct s; reflexivity|]. split; intros; lia.
  - cbn [wait_ticks]. unfold bind at 1, ask.
    destruct (RUNNING env (clock s)) eqn:Er.
    + unfold bind, emit. cbn [clock trace].
      destruct (IH (mkSt (S (clock s)) (trace s ++ [EvSleep])))
        as (k & Hk & -> & Hrun & Hstop).
      cbn [clock trace] in *. exists (S k). split; [lia|]. split; [|split].
      * f_equal. f_equal.
        -- change (S k <? S n)%nat with (k <? n)%nat. lia.
        -- rewrite <- app_assoc. reflexivity.
      * intros i Hi. destruct i as [|i]; [rewrite Nat.add_0_r; exact Er|].
        rewrite Nat.add_succ_r, <- Nat.add_succ_l. apply Hrun. lia.
      * intros Hlt. rewrite Nat.add_succ_r, <- Nat.add_succ_l. apply Hstop. lia.
    + exists 0%nat. cbn [repeat]. rewrite app_nil_r, !Nat.add_0_r.
      split; [lia|].
      split; [change (0 <? S n)%nat with true; cbv iota;
              rewrite Nat.add_1_r; reflexivity|].
      split; [intros; lia|intros _; exact Er].
Qed.

End Wait.

(** X14.  The refresh wait never raises and only sleeps: it sleeps one
    second at a time while the [RUNNING] flag is set, for 30 seconds at
    most, looking at the flag before every second; it ends at once, with
    no further sleep, on the first look that finds the flag cleared. *)
Theorem wait_sleeps_until_cancelled (env : Env) (s : St) :
  exists k,
    (k <= 30)%nat /\
    wait env s
    = (Return tt,
       mkSt (clock s + k + (if (k <? 30)%nat then 1 else 0)) (trace s ++ repeat EvSleep k)) /\
    (forall i, (i < k)%nat -> RUNNING env (clock s + i) = true) /\
    ((k < 30)%nat -> RUNNING env (clock s + k) = false).
Proof.
  exact (wait_ticks_spec env 30 s).
Qed.

Section FindPid.
Variable name : string.

Lemma find_pid_in_cons (p : process_info) (rest : list process_info) :
  find_pid_in (p :: rest) name
  = if process_matches name p then Some (info_pid p) else find_pid_in rest name.
Proof.
  cbn [find_pid_in]. unfold process_matches.
  destruct (info_name p) as [[|c n]|]; reflexivity.
Qed.

Lemma find_pid_in_none (processes : list process_info) :
  find_pid_in processes name = None
  <-> forallb (fun p => negb (process_matches name p)) processes = true.
Proof.
  induction processes as [|p rest IH]; [split; reflexivity|].
  rewrite find_pid_in_cons. cbn [forallb].
  destruct (process_matches name p); cbn [negb andb]; [split; discriminate|exact IH].
Qed.

Lemma find_pid_in_some (processes : list process_info) (pid : Z) :
  find_pid_in processes name = Some pid
  <-> exists before p after,
        processes = before ++ p :: after /\
        forallb (fun q => negb (process_matches name q)) before = true /\
        process_matches name p = true /\
        info_pid p = pid.
Proof.
  induction processes as [|p rest IH].
  - split; [discriminate|]. intros (before & q & after & E & _).
    destruct before; discriminate E.
  - rewrite find_pid_in_cons. destruct (process_matches name p) eqn:Ep.
    + split.
      * intros H. injection H as <-. exists [], p, rest. repeat split. exact Ep.
      * intros (before & q & after & E & Hb & Hq & <-).
        destruct before as [|b before].
        -- injection E as <- _. reflexivity.
        -- injection E as <- _. cbn [forallb] in Hb. rewrite Ep in Hb. discriminate Hb.
    + rewrite IH. split.
      * intros (before & q & after & -> & Hb & Hq & <-).
        exists (p :: before), q, after. cbn [forallb]. rewrite Ep.
        repeat split; assumption.
      * intros (before & q & after & E & Hb & Hq & <-).
        destruct before as [|b before].
        -- injection E as <- _. rewrite Ep in Hq. discriminate Hq.
        -- injection E as <- ->. cbn [forallb] in Hb.
           apply andb_true_iff in Hb. destruct Hb as [_ Hb].
           exists before, q, after. repeat split; assumption.
Qed.

End FindPid.

(** X15.  The process search returns the pid of the first process of the
    list whose name is not empty and equals the wanted name up to case,
    and [None] exactly when no process of the list is such. *)
Theorem find_pid_gives_first_match (name : string) (processes : list process_info) :
  (forall pid,
      find_pid_in processes name = Some pid
      <-> exists before p after,
            processes = before ++ p :: after /\
            forallb (fun q => negb (process_matches name q)) before = true /\
            process_matches name p = true /\
            info_pid p = pid) /\
  (find_pid_in processes name = None
   <-> forallb (fun p => negb (process_matches name p)) processes = true).
Proof.
  split; [intros pid; apply find_pid_in_some|apply find_pid_in_none].
Qed.

Section Attachment.
Variable env : Env.
Variable entries : list chain.

(** The steps of an iteration up to the attachment. *)
Lemma iteration_cases (s : St) :
  iteration env entries s
  = match stdout env (clock s) with
    | Raise e => (Raise e, mkSt (S (clock s)) (trace s ++ [EvClear]))
    | Return _ =>
        let s2 := mkSt (S (S (clock s))) ((trace s ++ [EvClear]) ++ [EvPrint MsgHeader]) in
        if no_pid (find_pid_in (process_iter env (S (clock s))) PROCESS_NAME)
        then bind (print env MsgNoGame) (fun _ => wait env) s2
        else bind (attach env)
                  (fun pm => match pm with
                             | None => ret tt
                             | Some pm => try_finally (cycle_body env pm entries) (release pm)
                             end) s2
    end.
Proof.
  unfold iteration, find_pid_by_name, print.
  unfold bind at 1, emit. unfold bind at 1. unfold bind at 1, ask. cbn [clock trace].
  destruct (stdout env (clock s)) as [[]|e]; [|reflexivity].
  unfold bind at 1. cbn [clock trace]. unfold bind at 1. unfold bind at 1.
  cbn [clock trace]. unfold ret at 1. cbv beta iota.
  destruct (no_pid (find_pid_in (process_iter env (S (clock s))) PROCESS_NAME));
    reflexivity.
Qed.

Lemma emits_no_game : emits (bind (print env MsgNoGame) (fun _ => wait env)) (only not_acquire).
Proof.
  apply emits_bind; [apply emits_print; reflexivity|]. intros _.
  apply emits_wait. reflexivity.
Qed.

Lemma emits_attach_failed_no_acquire (e : exn) :
  emits (bind (print env (MsgAttachFailed e))
              (fun _ => bind (wait env) (fun _ => ret (@None Pymem))))
        (only not_acquire).
Proof.
  apply emits_bind; [apply emits_print; reflexivity|]. intros _.
  apply emits_bind; [apply emits_wait; reflexivity|]. intros _. apply emits_ret.
Qed.

End Attachment.

(** X16.  An iteration of the loop attaches to the process only when the
    header could be shown, a process named like the game was found (with
    a pid that is not 0) and the attachment did not raise: it then
    acquires the handle right after the header, before anything else;
    in every other case it acquires nothing. *)
Theorem iteration_attaches_only_to_a_found_process
    (env : Env) (entries : list chain) (s : St) :
  exists evs,
    trace (snd (iteration env entries s)) = trace s ++ evs /\
    ((stdout env (clock s) = Return tt /\
      no_pid (find_pid_in (process_iter env (S (clock s))) PROCESS_NAME) = false /\
      exists pm, Pymem_open env (S (S (clock s))) = Return pm) ->
     exists rest, evs = [EvClear; EvPrint MsgHeader; EvAcquire] ++ rest) /\
    (~ (stdout env (clock s) = Return tt /\
        no_pid (find_pid_in (process_iter env (S (clock s))) PROCESS_NAME) = false /\
        exists pm, Pymem_open env (S (S (clock s))) = Return pm) ->
     only not_acquire evs).
Proof.
  rewrite iteration_cases.
  destruct (stdout env (clock s)) as [[]|e] eqn:Eo.
  - cbv zeta.
    destruct (no_pid (find_pid_in (process_iter env (S (clock s))) PROCESS_NAME)) eqn:Ep.
    + destruct (emits_no_game env
                  (mkSt (S (S (clock s))) ((trace s ++ [EvClear]) ++ [EvPrint MsgHeader])))
        as (evs & E & P).
      exists ([EvClear; EvPrint MsgHeader] ++ evs).
      split; [rewrite E; cbn [trace]; rewrite <- !app_assoc; reflexivity|].
      split; [intros (_ & H & _); discriminate H|].
      intros _. apply only_app; [reflexivity|exact P].
    + unfold bind at 1. rewrite attach_cases. cbn [clock trace].
      destruct (Pymem_open env (S (S (clock s)))) as [pm|e] eqn:Ea.
      * destruct (emits_try_finally_release env pm entries
                    (mkSt (S (S (S (clock s))))
                          (((trace s ++ [EvClear]) ++ [EvPrint MsgHeader]) ++ [EvAcquire])))
          as (evs & E & _).
        exists ([EvClear; EvPrint MsgHeader; EvAcquire] ++ evs).
        split; [rewrite E; cbn [trace]; rewrite <- !app_assoc; reflexivity|].
        split; [intros _; exists evs; reflexivity|].
        intros H. exfalso. apply H. repeat split. exists pm. reflexivity.
      * destruct (emits_attach_failed_no_acquire env e
                    (mkSt (S (S (S (clock s))))
                          ((trace s ++ [EvClear]) ++ [EvPrint MsgHeader])))
          as (evs & E & P).
        pose proof (attach_failed_gives_no_handle env e
                      (mkSt (S (S (S (clock s))))
                            ((trace s ++ [EvClear]) ++ [EvPrint MsgHeader]))) as Hno.
        destruct (bind (print env (MsgAttachFailed e))
                       (fun _ => bind (wait env) (fun _ => ret None))
                       (mkSt (S (S (S (clock s))))
                             ((trace s ++ [EvClear]) ++ [EvPrint MsgHeader])))
          as [[[pm|]|e'] s1].
        -- exfalso. apply (Hno pm s1). reflexivity.
        -- exists ([EvClear; EvPrint MsgHeader] ++ evs).
           split; [cbn [snd ret] in *; rewrite E; cbn [trace];
                   rewrite <- !app_assoc; reflexivity|].
           split; [intros (_ & _ & pm & H); discriminate H|].
           intros _. apply only_app; [reflexivity|exact P].
        -- exists ([EvClear; EvPrint MsgHeader] ++ evs).
           split; [cbn [snd] in *; rewrite E; cbn [trace];
                   rewrite <- !app_assoc; reflexivity|].
           split; [intros (_ & _ & pm & H); discriminate H|].
           intros _. apply only_app; [reflexivity|exact P].
  - exists [EvClear]. split; [reflexivity|].
    split; [intros (H & _); discriminate H|]. intros _. reflexivity.
Qed.

Lemma iteration_attaches_only_to_a_found_process_witness :
  exists rest,
    trace (snd (iteration (Fixture.env_of (Image.handle Fixture.two_targets) 3
                                          (fun _ => false))
                          [Fixture.to_3008] s0))
    = [EvClear; EvPrint MsgHeader; EvAcquire] ++ rest.
Proof.
  destruct (iteration_attaches_only_to_a_found_process
              (Fixture.env_of (Image.handle Fixture.two_targets) 3 (fun _ => false))
              [Fixture.to_3008] s0) as (evs & E & Hyes & _).
  destruct Hyes as [rest ->].
  - split; [reflexivity|]. split; [reflexivity|].
    exists (Image.handle Fixture.two_targets). reflexivity.
  - exists rest. exact E.
Defined.

(** * Further properties of the charts *)

Section Charts.
Import Display.

Lemma known_cases (value : Z) :
  known value = true ->
  value = 0 \/ value = 1 \/ value = 2 \/ value = 3 \/ value = 4 \/ value = 5 \/ value = 6 \/ value = 7 \/ value = 8 \/ value = 9 \/ value = 10 \/ value = 11 \/ value = 12 \/ value = 13 \/ value = 14 \/ value = 15 \/ value = 16 \/ value = 17 \/ value = 18 \/ value = 19 \/ value = 20 \/ value = 21 \/ value = 22 \/ value = 23.
Proof.
  unfold known. intros H. apply andb_true_iff in H. destruct H as [H0 H23].
  apply Z.leb_le in H0. apply Z.leb_le in H23. lia.
Qed.

Lemma unknown_ghost (value : Z) : known value = false -> ghost_of value = "Unknown".
Proof.
  unfold known, ghost_of. intros H. apply andb_false_iff in H.
  assert (Hout : value < 0 \/ 23 < value).
  { destruct H as [H|H]; apply Z.leb_gt in H; lia. }
  cbn [GHOST_TYPES dict_get].
  repeat match goal with
         | |- context [?k =? value] => destruct (Z.eqb_spec k value) as [E|_]; [lia|]
         end.
  reflexivity.
Qed.

End Charts.

(** X17.  The ghost chart highlights exactly one cell, the one of the
    ghost, for every value from 0 to 23, and no cell for any other value
    (which is shown as "Unknown"): the table of ghost types and the grid
    of the chart hold the same 24 names. *)
Theorem ghost_chart_highlights_the_ghost (value : Z) :
  filter (Display.ghost_highlighted (Display.ghost_of value))
         (List.concat Display.ghost_names)
  = if Display.known value then [Display.ghost_of value] else [].
Proof.
  destruct (Display.known value) eqn:K.
  - pose proof (known_cases value K) as H.
    repeat (destruct H as [H|H]; [subst value; vm_compute; reflexivity|]).
    subst value. vm_compute. reflexivity.
  - rewrite (unknown_ghost value K). vm_compute. reflexivity.
Qed.

(** X18.  The evidence chart highlights, for every value from 0 to 23,
    exactly the evidences listed for the ghost in the evidence map, and
    for The Mimic (20) also "Ghost Orb", which its note names: three
    evidences, four for The Mimic; for any other value it highlights
    none.  The substring test of the chart highlights no evidence beyond
    these. *)
Theorem evidence_chart_highlights_the_evidences (value : Z) :
  map (Display.evidence_matches (Display.ghost_evidence (Display.ghost_of value)))
      Display.ALL_EVIDENCES
  = map (fun ev =>
           existsb (String.eqb ev)
                   (Display.evidence_get Display.EVIDENCE_MAP (Display.ghost_of value))
           || ((value =? 20) && String.eqb ev "Ghost Orb"))
        Display.ALL_EVIDENCES /\
  List.length (filter (Display.evidence_matches
                         (Display.ghost_evidence (Display.ghost_of value)))
                      Display.ALL_EVIDENCES)
  = if Display.known value then (if value =? 20 then 4%nat else 3%nat) else 0%nat.
Proof.
  destruct (Display.known value) eqn:K.
  - pose proof (known_cases value K) as H.
    repeat (destruct H as [H|H]; [subst value; vm_compute; split; reflexivity|]).
    subst value. vm_compute. split; reflexivity.
  - rewrite (unknown_ghost value K).
    assert (E : (value =? 20) = false).
    { unfold Display.known in K. apply andb_false_iff in K.
      apply Z.eqb_neq. destruct K as [K|K]; apply Z.leb_gt in K; lia. }
    rewrite E. vm_compute. split; reflexivity.
Qed.

(** * Further properties of [main] *)

Section Main.
Variable env : Env.

Lemma emits_print_released (m : message) :
  emits (print env m) (fun evs => held_after false evs = false).
Proof.
  apply emits_weaken with (P := only not_handle).
  - intros evs H. apply held_after_untouched, H.
  - apply emits_print. reflexivity.
Qed.

Lemma emits_main_released (xml : option (outcome (list CheatEntry))) (fuel : nat) :
  emits (main env xml fuel) (fun evs => held_after false evs = false).
Proof.
  destruct xml as [tree|]; cbn [main]; [|apply emits_print_released].
  intros s. unfold bind at 1, lift.
  destruct (obind tree load_entries) as [[|entry rest]|e].
  - apply emits_print_released.
  - unfold bind.
    destruct (poll_loop_released env (entry :: rest) fuel s) as (e1 & E1 & P1).
    destruct (poll_loop env (entry :: rest) fuel s) as [[[|]|e] s1];
      cbn [snd] in E1.
    + destruct (emits_print_released MsgGoodbye s1) as (e2 & E2 & P2).
      exists (e1 ++ e2). rewrite E2, E1, app_assoc. split; [reflexivity|].
      rewrite held_after_app, P1. exact P2.
    + exists e1. split; [exact E1|exact P1].
    + exists e1. split; [exact E1|exact P1].
  - exists []. cbn [snd]. rewrite app_nil_r. split; reflexivity.
Qed.

End Main.

(** X19.  However [main] ends (the file missing, the load failing, no
    entry loaded, the loop ended or interrupted by an exception), the
    handle is not held at its end.  A definition file that does not load
    makes [main] raise the error of the load before it shows anything or
    looks for the process; and a file with no valid entry makes it show
    one message and stop, the process never being looked for. *)
Theorem main_releases_and_fails_early
    (env : Env) (xml : option (outcome (list CheatEntry))) (fuel : nat) (s : St) :
  (exists evs,
      trace (snd (main env xml fuel s)) = trace s ++ evs /\
      held_after false evs = false) /\
  (forall tree e,
      xml = Some tree -> obind tree load_entries = Raise e ->
      main env xml fuel s = (Raise e, s)) /\
  (forall tree,
      xml = Some tree -> obind tree load_entries = Return [] ->
      main env xml fuel s = print env MsgNoEntries s /\
      clock (snd (main env xml fuel s)) = S (clock s)).
Proof.
  split; [apply emits_main_released|]. split.
  - intros tree e -> H. cbn [main]. unfold bind, lift. rewrite H. reflexivity.
  - intros tree -> H. cbn [main]. unfold bind at 1, lift. rewrite H.
    split; [reflexivity|].
    unfold print, bind, ask, emit. destruct (stdout env (clock s)); reflexivity.
Qed.

Lemma main_releases_and_fails_early_witness :
  main (Fixture.env_of (Image.handle Fixture.two_targets) 1000 (fun _ => false))
       (Some (Return [{| Address := Some "Core0x10"; Offsets := None |}])) 5 s0
  = (Raise ValueError, s0).
Proof.
  apply (proj1 (proj2 (main_releases_and_fails_early
                         (Fixture.env_of (Image.handle Fixture.two_targets) 1000
                                         (fun _ => false))
                         (Some (Return [{| Address := Some "Core0x10"; Offsets := None |}]))
                         5 s0))
               (Return [{| Address := Some "Core0x10"; Offsets := None |}]) ValueError);
    reflexivity.
Defined.

(** * Letter case in the offset texts *)

Section LetterCase.

Lemma isspace_lower_char (c : ascii) :
  PyStr.isspace (PyStr.lower_char c) = PyStr.isspace c.
Proof.
  destruct c as [b0 b1 b2 b3 b4 b5 b6 b7].
  destruct b0, b1, b2, b3, b4, b5, b6, b7; reflexivity.
Qed.

Lemma lower_char_idempotent (c : ascii) :
  PyStr.lower_char (PyStr.lower_char c) = PyStr.lower_char c.
Proof.
  destruct c as [b0 b1 b2 b3 b4 b5 b6 b7].
  destruct b0, b1, b2, b3, b4, b5, b6, b7; reflexivity.
Qed.

Lemma lower_idempotent (s : string) : PyStr.lower (PyStr.lower s) = PyStr.lower s.
Proof.
  induction s as [|c s IH]; [reflexivity|].
  cbn [PyStr.lower]. rewrite lower_char_idempotent, IH. reflexivity.
Qed.

Lemma lstrip_lower (s : string) :
  PyStr.lstrip (PyStr.lower s) = PyStr.lower (PyStr.lstrip s).
Proof.
  induction s as [|c s IH]; [reflexivity|].
  cbn [PyStr.lower PyStr.lstrip]. rewrite isspace_lower_char.
  destruct (PyStr.isspace c); [exact IH|reflexivity].
Qed.

Lemma rstrip_lower (s : string) :
  PyStr.rstrip (PyStr.lower s) = PyStr.lower (PyStr.rstrip s).
Proof.
  induction s as [|c s IH]; [reflexivity|].
  cbn [PyStr.lower PyStr.rstrip]. rewrite IH, isspace_lower_char.
  destruct (PyStr.rstrip s) as [|c' r']; cbn [PyStr.lower].
  - destruct (PyStr.isspace c); reflexivity.
  - reflexivity.
Qed.

Lemma offset_text_lower (t : string) :
  offset_text (Some (PyStr.lower t)) = offset_text (Some t).
Proof.
  unfold offset_text, text_or_empty, PyStr.strip.
  rewrite lstrip_lower, rstrip_lower, lower_idempotent. reflexivity.
Qed.

Lemma offset_text_lowered (n1 n2 : option string) :
  option_map PyStr.lower n1 = option_map PyStr.lower n2 ->
  offset_text n1 = offset_text n2.
Proof.
  destruct n1 as [t1|], n2 as [t2|]; cbn [option_map]; intros H;
    try discriminate H; [|reflexivity].
  injection H as H.
  rewrite <- (offset_text_lower t1), <- (offset_text_lower t2), H. reflexivity.
Qed.

End LetterCase.

(** X20.  The parse of the offset texts does not look at letter case: two
    lists of [Offset] texts that are the same up to case give the same
    offsets, or fail alike. *)
Theorem parse_offsets_ignores_case (nodes1 nodes2 : list (option string)) :
  map (option_map PyStr.lower) nodes1 = map (option_map PyStr.lower) nodes2 ->
  parse_offsets nodes1 = parse_offsets nodes2.
Proof.
  unfold parse_offsets. generalize (@nil Z). revert nodes2.
  induction nodes1 as [|n1 rest1 IH]; intros [|n2 rest2] offs H;
    try discriminate H; [reflexivity|].
  cbn [map] in H. injection H as Hn Hrest.
  cbn [parse_offsets_from]. fold (offset_text n1). fold (offset_text n2).
  rewrite (offset_text_lowered n1 n2 Hn).
  destruct (offset_text n2) as [|c r]; [apply IH, Hrest|].
  destruct (PyStr.int16 (String c r)) as [v|e]; [|reflexivity].
  cbn [obind]. apply IH, Hrest.
Qed.

Lemma parse_offsets_ignores_case_witness :
  parse_offsets [Some "0X1A"; Some " ff "] = parse_offsets [Some "0x1a"; Some " FF "].
Proof.
  apply (parse_offsets_ignores_case [Some "0X1A"; Some " ff "]
                                    [Some "0x1a"; Some " FF "]).
  reflexivity.
Defined.

(** * The tally, definition by definition *)

Section TallyInWords.
Variable pm : Pymem.

Lemma Tallies_collect (s : St) (entries : list chain) (tally : list (Z * Z)) (s' : St) :
  Tallies pm s entries tally s' ->
  forall results, collect pm entries results s = (Return (results ++ tally), s').
Proof.
  induction 1 as [s
                 |s m bo offs rest tally s1 s' Hr _ IH
                 |s m bo offs rest tally s1 s' Hr _ IH
                 |s m bo offs rest tally a e s1 s2 s' Hr Ha Hv _ IH
                 |s m bo offs rest tally a v s1 s2 s' Hr Ha Hv _ IH];
    intros results.
  - rewrite app_nil_r. reflexivity.
  - rewrite (collect_skips_unresolved pm _ _ _ _ _ _ _ Hr). apply IH.
  - rewrite (collect_skips_null pm _ _ _ _ _ _ _ Hr). apply IH.
  - rewrite (collect_reads_value pm _ _ _ _ _ _ _ _ Hr Ha), Hv. apply IH.
  - rewrite (collect_reads_value pm _ _ _ _ _ _ _ _ Hr Ha), Hv, IH, <- app_assoc.
    reflexivity.
Qed.

Lemma Tallies_exists (entries : list chain) :
  forall s, exists tally s', Tallies pm s entries tally s'.
Proof.
  induction entries as [|[[m bo] offs] rest IH]; intros s.
  - exists [], s. constructor.
  - destruct (resolve_pointer_returns pm m bo offs s) as (r & s1 & Hr & _).
    destruct r as [a|].
    + destruct (Z.eq_dec a 0) as [->|Ha].
      * destruct (IH s1) as (tally & s' & HT).
        exists tally, s'. apply (Tallies_null pm _ _ _ _ _ _ _ _ Hr HT).
      * destruct (read_value pm a s1) as [[v|e] s2] eqn:Hv;
          destruct (IH s2) as (tally & s' & HT).
        -- exists ((a, v) :: tally), s'.
           apply (Tallies_read pm _ _ _ _ _ _ _ _ _ _ _ Hr Ha Hv HT).
        -- exists tally, s'.
           apply (Tallies_unreadable pm _ _ _ _ _ _ _ _ _ _ _ Hr Ha Hv HT).
    + destruct (IH s1) as (tally & s' & HT).
      exists tally, s'. apply (Tallies_unresolved pm _ _ _ _ _ _ _ _ Hr HT).
Qed.

Lemma Tallies_app (before after : list chain) :
  forall s tally0 sb tally1 s',
    Tallies pm s before tally0 sb ->
    Tallies pm sb after tally1 s' ->
    Tallies pm s (before ++ after) (tally0 ++ tally1) s'.
Proof.
  intros s tally0 sb tally1 s' Hb Ha.
  induction Hb; cbn [app]; try (econstructor; eauto; fail). exact Ha.
Qed.

(** Over an unchanged memory the tally is empty exactly when every
    definition gives nothing. *)
Lemma Tallies_empty_unchanged (s : St) (entries : list chain) (tally : list (Z * Z))
    (s' : St) :
  same_image pm pm ->
  Tallies pm s entries tally s' ->
  (tally = [] <-> Forall (gives_nothing pm) entries).
Proof.
  intros Hsame.
  assert (Hres : forall m bo offs s1 s2,
             fst (resolve_pointer pm m bo offs s1)
             = fst (resolve_pointer pm m bo offs s2))
    by (intros; apply (same_result_resolve_pointer pm pm Hsame)).
  assert (Hread : forall a s1 s2,
             fst (read_value pm a s1) = fst (read_value pm a s2))
    by (intros; apply (same_result_read_value pm pm Hsame)).
  induction 1 as [s
                 |s m bo offs rest tally s1 s' Hr _ IH
                 |s m bo offs rest tally s1 s' Hr _ IH
                 |s m bo offs rest tally a e s1 s2 s' Hr Ha Hv _ IH
                 |s m bo offs rest tally a v s1 s2 s' Hr Ha Hv _ IH].
  - split; [constructor|reflexivity].
  - rewrite IH. split.
    + intros HF. constructor; [|exact HF]. intros s0' a0 H.
      cbn [fst snd] in H. rewrite (Hres _ _ _ s0' s), Hr in H. discriminate H.
    + intros HF. inversion HF; assumption.
  - rewrite IH. split.
    + intros HF. constructor; [|exact HF]. intros s0' a0 H.
      cbn [fst snd] in H. rewrite (Hres _ _ _ s0' s), Hr in H.
      injection H as <-. left. reflexivity.
    + intros HF. inversion HF; assumption.
  - rewrite IH. split.
    + intros HF. constructor; [|exact HF]. intros s0' a0 H.
      cbn [fst snd] in H. rewrite (Hres _ _ _ s0' s), Hr in H.
      injection H as <-. right. intros s3. exists e.
      rewrite (Hread a s3 s1), Hv. reflexivity.
    + intros HF. inversion HF; assumption.
  - split; [discriminate|]. intros HF. exfalso.
    inversion HF as [|? ? Hg _]; subst.
    destruct (Hg s a) as [E|E].
    + cbn [fst snd]. rewrite Hr. reflexivity.
    + exact (Ha E).
    + destruct (E s1) as [e He]. rewrite Hv in He. discriminate He.
Qed.

End TallyInWords.

Section CycleOverTally.
Variable pm : Pymem.

(** How a cycle ends, from the tally in words. *)
Lemma aggregate_of_tally (entries : list chain) (s : St) (tally : list (Z * Z)) (s1 : St) :
  Tallies pm s entries tally s1 ->
  match tally with
  | [] => aggregate pm entries s = (Return NoConsensus, s1)
  | _ :: _ =>
      let addrs := map fst tally in
      exists best_addr count,
        In best_addr addrs /\
        count = occurrences addrs best_addr /\
        (forall a, (occurrences addrs a <= count)%nat) /\
        (forall b, b <> best_addr -> occurrences addrs b = count ->
                   first_before addrs best_addr b) /\
        aggregate pm entries s
        = match read_value pm best_addr s1 with
          | (Return v, s2) =>
              (Return (Stabilized {| winning_address := best_addr;
                                     value := v;
                                     agreement_count := count;
                                     total_resolved := List.length tally |}), s2)
          | (Raise _, s2) => (Return StabilizationReadFailed, s2)
          end
  end.
Proof.
  intros HT. pose proof (Tallies_collect pm _ _ _ _ HT []) as Hc. cbn [app] in Hc.
  destruct (aggregate_cases pm entries s) as (results & s1' & Hc' & _ & _ & Hagg).
  rewrite Hc in Hc'. injection Hc' as <- <-.
  destruct tally as [|r rest]; [exact Hagg|]. cbv zeta.
  destruct (vote_winner r rest) as (w & c & Hv & Hin & Hcount & Hmax & Htie).
  destruct Hagg as (best_addr & count & Hv' & Hagg).
  rewrite Hv in Hv'. injection Hv' as <- <-.
  exists w, c. repeat split; assumption.
Qed.

Lemma no_consensus_iff_empty (entries : list chain) (s : St) (tally : list (Z * Z))
    (s1 : St) :
  Tallies pm s entries tally s1 ->
  (fst (aggregate pm entries s) = Return NoConsensus <-> tally = []).
Proof.
  intros HT. pose proof (aggregate_of_tally _ _ _ _ HT) as H.
  destruct tally as [|r rest].
  - rewrite H. split; reflexivity.
  - cbv zeta in H. destruct H as (w & c & _ & _ & _ & _ & ->).
    destruct (read_value pm w s1) as [[v|e] s2]; split; discriminate.
Qed.

End CycleOverTally.

(** C3, as the code has it.  The vote is over the tally: the addresses
    that resolved, are not 0 and whose value could be read, in definition
    order.  When the tally is not empty the cycle selects an address of
    the greatest occurrence count in the tally, with that count as hits
    and the size of the tally as total; among the addresses that share the
    greatest count it selects the one whose first occurrence comes first
    in the tally.  When every value can be read, the resolved addresses
    [[0xAAAA, 0xBBBB, 0xAAAA, 0xBBBB]] give the winner 0xAAAA, and
    [[0x3008, 0x3008, 0x4000]] give 0x3008 with 2 hits out of 3. *)
Theorem aggregate_selects_first_most_common_of_the_tally :
  (forall pm entries s,
      exists tally s1,
        Tallies pm s entries tally s1 /\
        match tally with
        | [] => aggregate pm entries s = (Return NoConsensus, s1)
        | _ :: _ =>
            let addrs := map fst tally in
            exists best_addr count,
              In best_addr addrs /\
              count = occurrences addrs best_addr /\
              (forall a, (occurrences addrs a <= count)%nat) /\
              (forall b, b <> best_addr -> occurrences addrs b = count ->
                         first_before addrs best_addr b) /\
              aggregate pm entries s
              = match read_value pm best_addr s1 with
                | (Return v, s2) =>
                    (Return (Stabilized {| winning_address := best_addr;
                                           value := v;
                                           agreement_count := count;
                                           total_resolved := List.length tally |}),
                     s2)
                | (Raise _, s2) => (Return StabilizationReadFailed, s2)
                end
        end) /\
  (map (fun entry => resolves_to (Image.handle Fixture.two_way) entry s0)
       [Fixture.to_AAAA; Fixture.to_BBBB; Fixture.to_AAAA; Fixture.to_BBBB]
   = [Return (Some 0xAAAA); Return (Some 0xBBBB);
      Return (Some 0xAAAA); Return (Some 0xBBBB)] /\
   fst (aggregate (Image.handle Fixture.two_way)
                  [Fixture.to_AAAA; Fixture.to_BBBB; Fixture.to_AAAA; Fixture.to_BBBB]
                  s0)
   = Return (Stabilized {| winning_address := 0xAAAA; value := 3;
                           agreement_count := 2; total_resolved := 4 |})) /\
  (map (fun entry => resolves_to (Image.handle Fixture.two_targets) entry s0)
       [Fixture.to_3008; Fixture.to_3008; Fixture.to_4000]
   = [Return (Some 0x3008); Return (Some 0x3008); Return (Some 0x4000)] /\
   fst (aggregate (Image.handle Fixture.two_targets)
                  [Fixture.to_3008; Fixture.to_3008; Fixture.to_4000] s0)
   = Return (Stabilized {| winning_address := 0x3008; value := 7;
                           agreement_count := 2; total_resolved := 3 |})).
Proof.
  split; [|split; split; reflexivity].
  intros pm entries s.
  destruct (Tallies_exists pm entries s) as (tally & s1 & HT).
  exists tally, s1. split; [exact HT|]. apply (aggregate_of_tally pm _ _ _ _ HT).
Qed.

Lemma aggregate_selects_first_most_common_of_the_tally_witness :
  first_before [0xAAAA; 0xBBBB; 0xAAAA; 0xBBBB] 0xAAAA 0xBBBB.
Proof.
  destruct (proj1 aggregate_selects_first_most_common_of_the_tally
                  (Image.handle Fixture.two_way)
                  [Fixture.to_AAAA; Fixture.to_BBBB; Fixture.to_AAAA; Fixture.to_BBBB]
                  s0) as (tally & s1 & HT & H).
  pose proof (Tallies_collect _ _ _ _ _ HT []) as Hc.
  vm_compute in Hc. injection Hc as <- <-.
  cbv zeta in H. destruct H as (best_addr & count & _ & Hcount & _ & Htie & Hagg).
  assert (Hbest : best_addr = 0xAAAA).
  { destruct (read_value (Image.handle Fixture.two_way) best_addr (mkSt 12 []))
      as [[v|e] s2].
    - vm_compute in Hagg. injection Hagg as <- _ _ _. reflexivity.
    - vm_compute in Hagg. discriminate Hagg. }
  subst best_addr. apply Htie; [discriminate|]. rewrite Hcount. reflexivity.
Defined.

(** C3 as stated fails.  The three definitions resolve to
    [[0x3008, 0x3008, 0x4000]], where 0x3008 has the highest count, but
    the value at 0x3008 cannot be read and the cycle selects 0x4000, with
    1 hit out of 1; and of the two definitions that resolve to
    [[0x3008, 0x4000]], one each, it selects 0x4000, not the first. *)
Lemma most_common_resolved_address_is_not_selected_counterexample :
  (map (fun entry => resolves_to (Image.handle Fixture.unreadable_target) entry s0)
       [Fixture.to_3008; Fixture.to_3008; Fixture.to_4000]
   = [Return (Some 0x3008); Return (Some 0x3008); Return (Some 0x4000)] /\
   fst (aggregate (Image.handle Fixture.unreadable_target)
                  [Fixture.to_3008; Fixture.to_3008; Fixture.to_4000] s0)
   = Return (Stabilized {| winning_address := 0x4000; value := 9;
                           agreement_count := 1; total_resolved := 1 |})) /\
  (map (fun entry => resolves_to (Image.handle Fixture.unreadable_target) entry s0)
       [Fixture.to_3008; Fixture.to_4000]
   = [Return (Some 0x3008); Return (Some 0x4000)] /\
   fst (aggregate (Image.handle Fixture.unreadable_target)
                  [Fixture.to_3008; Fixture.to_4000] s0)
   = Return (Stabilized {| winning_address := 0x4000; value := 9;
                           agreement_count := 1; total_resolved := 1 |})).
Proof.
  split; split; reflexivity.
Qed.

(** C8, as the code has it.  A cycle ends with no consensus exactly when
    its tally is empty, the tally being made, definition by definition,
    of the addresses that resolved, are not 0 and whose value could be
    read: one definition that resolves to such an address is enough for
    the cycle not to end with no consensus, and over an unchanged memory
    the cycle ends with no consensus exactly when every definition gives
    nothing to tally.  This is so in particular when no definition
    resolves.  The cycle then shows no value.  A result is produced only
    with at least one tallied address: its total is the size of the
    tally, at most the number of definitions, and its count of hits is at
    least 1 and at most the total. *)
Theorem no_consensus_exactly_on_empty_tally (pm : Pymem) (entries : list chain) (s : St) :
  (exists tally s1, Tallies pm s entries tally s1) /\
  (forall tally s1,
      Tallies pm s entries tally s1 ->
      (fst (aggregate pm entries s) = Return NoConsensus <-> tally = []) /\
      (forall r, fst (aggregate pm entries s) = Return (Stabilized r) ->
                 total_resolved r = List.length tally)) /\
  (forall before module_name base_offset offsets after tally0 sb s1 s2 a v,
      entries = before ++ (module_name, base_offset, offsets) :: after ->
      Tallies pm s before tally0 sb ->
      resolve_pointer pm module_name base_offset offsets sb = (Return (Some a), s1) ->
      a <> 0 ->
      read_value pm a s1 = (Return v, s2) ->
      fst (aggregate pm entries s) <> Return NoConsensus) /\
  (same_image pm pm ->
   (fst (aggregate pm entries s) = Return NoConsensus
    <-> Forall (gives_nothing pm) entries)) /\
  (fst (aggregate pm entries s) = Return NoConsensus
   <-> fst (collect pm entries [] s) = Return []) /\
  ((forall module_name base_offset offsets s',
       In (module_name, base_offset, offsets) entries ->
       fst (resolve_pointer pm module_name base_offset offsets s') = Return None) ->
   fst (aggregate pm entries s) = Return NoConsensus) /\
  (forall env,
      fst (aggregate pm entries s) = Return NoConsensus ->
      exists evs,
        trace (snd (cycle_body env pm entries s)) = trace s ++ evs /\
        only not_a_value evs) /\
  (forall r,
      fst (aggregate pm entries s) = Return (Stabilized r) ->
      (1 <= agreement_count r <= total_resolved r)%nat /\
      (total_resolved r <= List.length entries)%nat).
Proof.
  destruct (aggregate_cases pm entries s) as (results & s1 & Hc & Hlen & _ & Hagg).
  assert (Hiff : fst (aggregate pm entries s) = Return NoConsensus
                 <-> fst (collect pm entries [] s) = Return []).
  { rewrite Hc. cbn [fst]. destruct results as [|r0 rest].
    - rewrite Hagg. split; reflexivity.
    - destruct Hagg as (best_addr & count & _ & ->).
      destruct (read_value pm best_addr s1) as [[v|e] s2];
        split; intros H; discriminate H. }
  split; [apply Tallies_exists|].
  split; [|split; [|split; [|split; [exact Hiff|split; [|split]]]]].
  - intros tally s1' HT. split; [apply (no_consensus_iff_empty pm _ _ _ _ HT)|].
    intros r H.
    pose proof (Tallies_collect pm _ _ _ _ HT []) as Hc'. cbn [app] in Hc'.
    destruct (aggregate_stabilized pm entries s r H)
      as (results' & s1'' & Hc'' & _ & _ & _ & Htotal & _).
    rewrite Hc' in Hc''. injection Hc'' as <- _. exact Htotal.
  - intros before m bo offs after tally0 sb s1' s2 a v -> Hb Hr Ha Hv.
    destruct (Tallies_exists pm after s2) as (tally1 & s' & Hafter).
    pose proof (Tallies_app pm _ _ _ _ _ _ _ Hb
                  (Tallies_read pm _ _ _ _ _ _ _ _ _ _ _ Hr Ha Hv Hafter)) as HT.
    rewrite (no_consensus_iff_empty pm _ _ _ _ HT).
    destruct tally0; discriminate.
  - intros Hsame.
    destruct (Tallies_exists pm entries s) as (tally & s' & HT).
    rewrite (no_consensus_iff_empty pm _ _ _ _ HT).
    apply (Tallies_empty_unchanged pm _ _ _ _ Hsame HT).
  - intros Hnone. apply Hiff. apply collect_nothing_resolves, Hnone.
  - intros env H. unfold cycle_body, bind.
    destruct (emits_aggregate not_a_value pm entries s) as (e1 & E1 & P1).
    destruct (aggregate pm entries s) as [o s2]. cbn [fst snd] in H, E1. subst o.
    destruct (show_no_consensus_shows_no_value env s2) as (e2 & E2 & P2).
    exists (e1 ++ e2). rewrite E2, E1, app_assoc.
    split; [reflexivity|apply only_app; assumption].
  - intros r H. destruct results as [|r0 rest].
    + rewrite Hagg in H. discriminate H.
    + destruct (vote_winner r0 rest) as (w & c & Hv & Hin & Hcount & _).
      destruct Hagg as (best_addr & count & Hv' & Hagg).
      rewrite Hv in Hv'. injection Hv' as <- <-.
      rewrite Hagg in H.
      destruct (read_value pm w s1) as [[v|e] s2]; [|discriminate H].
      cbn [fst] in H. injection H as <-.
      cbn [agreement_count total_resolved]. split; [|exact Hlen].
      rewrite Hcount. unfold occurrences. split.
      * apply (proj1 (count_occ_In Z.eq_dec _ w)). exact Hin.
      * pose proof (count_occ_bound Z.eq_dec w (map fst (r0 :: rest))) as Hb.
        rewrite length_map in Hb. exact Hb.
Qed.

Lemma no_consensus_exactly_on_empty_tally_witness :
  Tallies (Image.handle Fixture.two_targets) s0
          [("Other", 0x10, [0x4; 0x8])] [] (mkSt 1 []) /\
  fst (aggregate (Image.handle Fixture.two_targets)
                 ([("Other", 0x10, [0x4; 0x8])] ++ Fixture.to_3008 :: [Fixture.to_null])
                 s0)
  <> Return NoConsensus.
Proof.
  assert (HT : Tallies (Image.handle Fixture.two_targets) s0
                       [("Other", 0x10, [0x4; 0x8])] [] (mkSt 1 [])).
  { apply Tallies_unresolved with (s1 := mkSt 1 []); [reflexivity|constructor]. }
  split; [exact HT|].
  apply (proj1 (proj2 (proj2 (no_consensus_exactly_on_empty_tally
                                (Image.handle Fixture.two_targets)
                                ([("Other", 0x10, [0x4; 0x8])]
                                   ++ Fixture.to_3008 :: [Fixture.to_null])
                                s0)))
               [("Other", 0x10, [0x4; 0x8])] "Core" 0x10 [0x4; 0x8] [Fixture.to_null]
               [] (mkSt 1 []) (mkSt 4 []) (mkSt 5 []) 0x3008 7).
  - reflexivity.
  - exact HT.
  - reflexivity.
  - discriminate.
  - reflexivity.
Defined.

Section ResolverStops.
Variable pm : Pymem.

(** A walk whose first reads succeed and whose next read raises stops
    there: the failed read is its last call. *)
Lemma follow_fails_at (pre : list Z) :
  forall t addr a off e,
    Follows pm t addr pre a ->
    read_bytes pm (t + List.length pre) (a + off) 8 = Raise e ->
    forall post tr,
      follow pm (pre ++ off :: post) addr (mkSt t tr)
      = (Raise e, mkSt (t + List.length pre + 1) tr).
Proof.
  induction pre as [|p pre IH]; intros t addr a off e HF Hr post tr;
    inversion HF; subst.
  - cbn [app follow List.length] in *. unfold bind, pm_read, ask. cbn [clock trace].
    rewrite Nat.add_0_r in Hr. rewrite Hr, Nat.add_0_r, Nat.add_1_r. reflexivity.
  - cbn [app follow List.length] in *. unfold bind, pm_read, ask. cbn [clock trace].
    match goal with E : read_bytes _ t _ _ = _ |- _ => rewrite E end.
    rewrite Nat.add_succ_r, <- Nat.add_succ_l in Hr.
    rewrite (IH _ _ _ _ _ ltac:(eassumption) Hr post tr).
    f_equal. f_equal. lia.
Qed.

End ResolverStops.

(** X8.  When the resolver returns an address it has asked the process
    exactly [2 + len(offsets[:-1])] times: the module lookup, the first
    pointer and one pointer for every offset but the last (2 calls when
    there is no offset or one), so that the final address is never read.
    It never asks more, and it asks nothing after a step that fails: 1
    call when the module is not found or its lookup raises, 2 when the
    read of the first pointer raises, [3 + k] when the first [k] reads of
    the walk succeed and the next one raises; it returns [None] in each
    of these cases. *)
Theorem resolve_pointer_number_of_reads
    (pm : Pymem) (module_name : string) (base_offset : Z) (offsets : list Z) (s : St) :
  let run := resolve_pointer pm module_name base_offset offsets s in
  let walk := removelast offsets in
  (clock s < clock (snd run) <= clock s + 2 + List.length walk)%nat /\
  (forall final,
      fst run = Return (Some final) ->
      clock (snd run) = (clock s + 2 + List.length walk)%nat) /\
  ((forall b, module_from_name pm (clock s) module_name <> Return (Some b)) ->
   run = (Return None, mkSt (clock s + 1) (trace s))) /\
  (forall b e,
      module_from_name pm (clock s) module_name = Return (Some b) ->
      read_bytes pm (S (clock s)) (b + base_offset) 8 = Raise e ->
      run = (Return None, mkSt (clock s + 2) (trace s))) /\
  (forall b pointer pre off post a e,
      module_from_name pm (clock s) module_name = Return (Some b) ->
      read_bytes pm (S (clock s)) (b + base_offset) 8 = Return pointer ->
      walk = pre ++ off :: post ->
      Follows pm (S (S (clock s))) (int_from_bytes_little pointer) pre a ->
      read_bytes pm (S (S (clock s)) + List.length pre) (a + off) 8 = Raise e ->
      run = (Return None, mkSt (clock s + 3 + List.length pre) (trace s))).
Proof.
  cbv zeta.
  split; [|split; [|split; [|split]]].
  - pose proof (resolve_pointer_calls pm module_name base_offset offsets s) as H.
    cbv zeta in H. rewrite removelast_length. apply H.
  - pose proof (resolve_pointer_calls pm module_name base_offset offsets s) as H.
    cbv zeta in H. rewrite removelast_length. apply H.
  - intros Hno. unfold resolve_pointer, try_except, bind, ask, ret, raise.
    destruct (module_from_name pm (clock s) module_name) as [[b|]|e];
      [exfalso; apply (Hno b); reflexivity| |];
      cbn [clock trace]; rewrite Nat.add_1_r; reflexivity.
  - intros b e Hm Hr.
    unfold resolve_pointer, try_except, bind, pm_read, ask, ret, raise.
    rewrite Hm. cbn [clock trace]. rewrite Hr.
    replace (clock s + 2)%nat with (S (S (clock s))) by lia. reflexivity.
  - intros b pointer pre off post a e Hm Hr Hw HF Hbad.
    unfold resolve_pointer, try_except, bind at 1 2 3, pm_read at 1, ask, ret, raise.
    rewrite Hm. cbn [clock trace]. rewrite Hr. unfold bind. rewrite Hw.
    rewrite (follow_fails_at pm pre _ _ _ _ _ HF Hbad post (trace s)).
    f_equal. f_equal. lia.
Qed.

Lemma resolve_pointer_number_of_reads_witness :
  resolve_pointer (Image.handle Fixture.chain_only) "Core" 0x10 [0x4; 0x8; 0xC] s0
  = (Return None, mkSt 4 []).
Proof.
  apply (proj2 (proj2 (proj2 (proj2
           (resolve_pointer_number_of_reads
              (Image.handle Fixture.chain_only) "Core" 0x10 [0x4; 0x8; 0xC] s0))))
           0x1000 (to_bytes_little 8 0x2000) [0x4] 0x8 [] 0x3000 MemoryReadError).
  - reflexivity.
  - reflexivity.
  - reflexivity.
  - apply Follows_cons with (pointer := to_bytes_little 8 0x3000);
      [reflexivity|apply Follows_nil].
  - reflexivity.
Defined.
